(** * chat_pdfs: hybrid retrieval over chunked PDF pages

    A shallow embedding of the retrieval core of [chat_pdfs.py]: the chunker,
    the fragment identifiers, the keyword extractor and searcher, the
    reciprocal-rank fusion, the relevance gate and the context expander.

    Conventions.
    - A Python [str] is a list of Unicode code points ([N]); [len] counts
      code points. String literals of the source are written as UTF-8
      literals and decoded by [u].
    - A Python [int] is a [Z].
    - A Python [float] score is an exact rational ([Q]); rounding is not
      modelled.
    - [list(set(xs))] is [elements (list_to_set xs)]: duplicate free, in an
      order the program does not control.
    - A call that may raise or may not return yields an [outcome]. *)

From Stdlib Require Import ZArith QArith Lia.
From stdpp Require Import base list sorting gmap strings.

Local Open Scope Z_scope.

(** ** Python values *)

Abbreviation str := (list N).

Inductive outcome (A : Type) : Type :=
| Returns (a : A)
| Raises (e : str)
| OutOfFuel.
Arguments Returns {A} a.
Arguments Raises {A} e.
Arguments OutOfFuel {A}.

Definition len {A} (s : list A) : Z := Z.of_nat (length s).

(** [s[i:j]] for arbitrary integers, negative ones counting from the end. *)
Definition clamp_index (n i : Z) : Z :=
  if i <? 0 then Z.max 0 (i + n) else Z.min i n.

Definition slice {A} (s : list A) (i j : Z) : list A :=
  let a := clamp_index (len s) i in
  let b := clamp_index (len s) j in
  take (Z.to_nat (b - a)) (drop (Z.to_nat a) s).

(** *** UTF-8 literals *)

Definition byte_val (a : Ascii.ascii) : N := Ascii.N_of_ascii a.

Fixpoint utf8_decode (fuel : nat) (bs : list N) : list N :=
  match fuel, bs with
  | S fuel', b0 :: rest =>
      if (b0 <? 128)%N then b0 :: utf8_decode fuel' rest
      else if (b0 <? 224)%N then
        match rest with
        | b1 :: rest' =>
            ((b0 - 192) * 64 + (b1 - 128))%N :: utf8_decode fuel' rest'
        | _ => []
        end
      else if (b0 <? 240)%N then
        match rest with
        | b1 :: b2 :: rest' =>
            ((b0 - 224) * 4096 + (b1 - 128) * 64 + (b2 - 128))%N
              :: utf8_decode fuel' rest'
        | _ => []
        end
      else
        match rest with
        | b1 :: b2 :: b3 :: rest' =>
            ((b0 - 240) * 262144 + (b1 - 128) * 4096 + (b2 - 128) * 64
             + (b3 - 128))%N :: utf8_decode fuel' rest'
        | _ => []
        end
  | _, _ => []
  end.

Definition u (s : string) : list N :=
  let bs := map byte_val (String.list_ascii_of_string s) in
  utf8_decode (length bs) bs.

(** *** Character classes (Basic Latin and Latin-1 Supplement exact, other
    code points uncased; white space is the full [str.isspace] table) *)

Definition in_range (lo hi c : N) : bool := ((lo <=? c) && (c <=? hi))%N.

Definition isspace (c : N) : bool :=
  in_range 9 13 c || in_range 28 32 c || (c =? 133)%N || (c =? 160)%N
  || (c =? 5760)%N || in_range 8192 8202 c || in_range 8232 8233 c
  || (c =? 8239)%N || (c =? 8287)%N || (c =? 12288)%N.

Definition isupper (c : N) : bool :=
  in_range 65 90 c || in_range 192 214 c || in_range 216 222 c.

Definition islower (c : N) : bool :=
  in_range 97 122 c || (c =? 170)%N || (c =? 181)%N || (c =? 186)%N
  || in_range 223 246 c || in_range 248 255 c.

Definition isdigit (c : N) : bool :=
  in_range 48 57 c || in_range 178 179 c || (c =? 185)%N.

Definition lower_char (c : N) : N := if isupper c then (c + 32)%N else c.

Definition upper_char (c : N) : list N :=
  if in_range 97 122 c || in_range 224 246 c || in_range 248 254 c
  then [(c - 32)%N]
  else if (c =? 223)%N then [83; 83]%N
  else if (c =? 181)%N then [924]%N
  else if (c =? 255)%N then [376]%N
  else [c].

Definition title_char (c : N) : list N :=
  if (c =? 223)%N then [83; 115]%N else upper_char c.

Definition lower (s : list N) : list N := map lower_char s.
Definition upper (s : list N) : list N := flat_map upper_char s.

(** [s.strip()] and [s.strip(chars)]: drop from both ends while [p] holds. *)
Fixpoint lstrip (p : N -> bool) (s : list N) : list N :=
  match s with
  | c :: s' => if p c then lstrip p s' else s
  | [] => []
  end.

Definition strip_by (p : N -> bool) (s : list N) : list N :=
  reverse (lstrip p (reverse (lstrip p s))).

Definition strip (s : list N) : list N := strip_by isspace s.

(** [s.split()]: maximal runs of non-space characters. *)
Fixpoint split_aux (cur : list N) (s : list N) : list (list N) :=
  match s with
  | [] => match cur with [] => [] | _ => [reverse cur] end
  | c :: s' =>
      if isspace c
      then match cur with
           | [] => split_aux [] s'
           | _ => reverse cur :: split_aux [] s'
           end
      else split_aux (c :: cur) s'
  end.

Definition split (s : list N) : list (list N) := split_aux [] s.

(** [str(n)] for an integer. *)
Definition digit_char (d : Z) : N := Z.to_N (48 + d).

Fixpoint str_pos_aux (fuel : nat) (n : Z) (acc : list N) : list N :=
  match fuel with
  | O => acc
  | S fuel' =>
      if n <? 10 then digit_char n :: acc
      else str_pos_aux fuel' (n / 10) (digit_char (n mod 10) :: acc)
  end.

Definition str_int (n : Z) : list N :=
  if n <? 0 then 45%N :: str_pos_aux (Z.to_nat (- n)) (- n) []
  else str_pos_aux (S (Z.to_nat n)) n [].

(** ** Configuration (section 2 of the source) *)

Definition CHUNK_SIZE : Z := 800.
Definition CHUNK_OVERLAP : Z := 200.
Definition MIN_CHUNK_LENGTH : Z := 100.
Definition N_RESULTADOS_SEMANTICOS : Z := 25.
Definition N_RESULTADOS_KEYWORD : Z := 20.
Definition TOP_K_FINAL : Z := 12.
Definition EXPANDIR_CONTEXTO : bool := true.
Definition USAR_BUSQUEDA_HIBRIDA : bool := true.
Definition UMBRAL_RELEVANCIA : Q := 2 # 100.

(** ** Chunker: [dividir_en_chunks] *)

(** One pass through the body of the [while]: either the loop goes on with
    a new offset, or the function returns. *)
Definition iteracion (texto : list N) (chunk_size overlap : Z)
    (inicio : Z) (chunks : list (list N)) : (Z * list (list N)) + list (list N) :=
  let texto_len := len texto in
  if inicio <? texto_len then
    let fin := Z.min (inicio + chunk_size) texto_len in
    let chunk := slice texto inicio fin in
    let chunks' :=
      if MIN_CHUNK_LENGTH <=? len (strip chunk)
      then chunks ++ [strip chunk] else chunks in
    if texto_len <=? fin then inr chunks'
    else inl (fin - overlap, chunks')
  else inr chunks.

Fixpoint bucle (fuel : nat) (texto : list N) (chunk_size overlap : Z)
    (inicio : Z) (chunks : list (list N)) : outcome (list (list N)) :=
  match iteracion texto chunk_size overlap inicio chunks with
  | inr r => Returns r
  | inl (inicio', chunks') =>
      match fuel with
      | O => OutOfFuel
      | S fuel' => bucle fuel' texto chunk_size overlap inicio' chunks'
      end
  end.

Definition dividir_en_chunks (fuel : nat) (texto : list N)
    (chunk_size overlap : Z) : outcome (list (list N)) :=
  bucle fuel texto chunk_size overlap 0 [].

(** ** Fragment metadata and identifiers *)

(** The metadata dictionary stored with each fragment. [source] and [page]
    are always written by the indexer; [chunk] and [total_chunks_in_page]
    are read with [.get] or guarded by [in], hence optional. *)
Record Metadata : Type := {
  source : str;
  page : Z;
  chunk : option Z;
  total_chunks_in_page : option Z
}.

(** [indexar_documentos]: [f"{archivo}_pag{i}_chunk{chunk_idx}"]. *)
Definition id_doc (archivo : str) (i chunk_idx : Z) : str :=
  archivo ++ u "_pag" ++ str_int i ++ u "_chunk" ++ str_int chunk_idx.

(** [realizar_busqueda_hibrida], semantic results:
    [f"{metadata['source']}_pag{metadata['page']}_chunk{metadata.get('chunk', 0)}"]. *)
Definition chunk_id_semantico (metadata : Metadata) : str :=
  source metadata ++ u "_pag" ++ str_int (page metadata) ++ u "_chunk"
    ++ str_int (default 0 (chunk metadata)).

(** [busqueda_por_keywords]:
    [f"{meta['source']}_pag{meta['page']}_chunk{meta.get('chunk', 0)}"]. *)
Definition chunk_id_keyword (meta : Metadata) : str :=
  source meta ++ u "_pag" ++ str_int (page meta) ++ u "_chunk"
    ++ str_int (default 0 (chunk meta)).

(** [ejecutar_chat], fetched neighbours:
    [f"{v_meta['source']}_pag{v_meta['page']}_chunk{v_meta.get('chunk', 0)}"]. *)
Definition v_id_de (v_meta : Metadata) : str :=
  source v_meta ++ u "_pag" ++ str_int (page v_meta) ++ u "_chunk"
    ++ str_int (default 0 (chunk v_meta)).

(** [expandir_con_chunks_adyacentes]:
    [f"{archivo}_pag{pagina}_chunk{k}"] with [k] the neighbour's index. *)
Definition id_adyacente (archivo : str) (pagina k : Z) : str :=
  archivo ++ u "_pag" ++ str_int pagina ++ u "_chunk" ++ str_int k.

(** [range(1, n_vecinos + 1)] is [seqZ 1 n_vecinos]. *)
Definition expandir_con_chunks_adyacentes (chunk_id : str)
    (metadata : Metadata) (n_vecinos : Z) : list str :=
  let archivo := source metadata in
  let pagina := page metadata in
  let chunk_num := default 0 (chunk metadata) in
  let anteriores :=
    omap (fun i => if 0 <=? chunk_num - i
                   then Some (id_adyacente archivo pagina (chunk_num - i))
                   else None) (seqZ 1 n_vecinos) in
  let siguientes :=
    match total_chunks_in_page metadata with
    | Some total =>
        omap (fun i => if chunk_num + i <? total
                       then Some (id_adyacente archivo pagina (chunk_num + i))
                       else None) (seqZ 1 n_vecinos)
    | None => []
    end in
  anteriores ++ siguientes.

(** One page of [indexar_documentos]: the identifier, text and metadata
    handed to [collection.add] for each chunk. The fuel [length texto]
    suffices for the default sizes. *)
Definition indexar_pagina (archivo : str) (i : Z) (texto : str)
    : list (str * str * Metadata) :=
  if MIN_CHUNK_LENGTH <? len texto then
    match dividir_en_chunks (length texto) texto CHUNK_SIZE CHUNK_OVERLAP with
    | Returns chunks =>
        imap (fun chunk_idx chunk =>
                (id_doc archivo i (Z.of_nat chunk_idx), chunk,
                 {| source := archivo; page := i;
                    chunk := Some (Z.of_nat chunk_idx);
                    total_chunks_in_page := Some (len chunks) |})) chunks
    | _ => []
    end
  else [].

(** ** Keyword extractor *)

Definition STOPWORDS : gset str :=
  list_to_set (map u
    [ "el"; "la"; "de"; "en"; "y"; "a"; "los"; "las"; "un"; "una"; "por"; "para";
      "con"; "del"; "que"; "es"; "son"; "se"; "al"; "como"; "más"; "su"; "me";
      "está"; "hay"; "tiene"; "puede"; "ser"; "sobre"; "entre"; "también";
      "podrías"; "decirme"; "cuáles"; "cómo"; "qué"; "indica"; "indicar"; "puedes";
      "tres"; "dos"; "estas"; "estos"; "principales"; "llaman"; "partes";
      "the"; "in"; "and"; "of"; "to"; "a"; "is"; "for"; "on"; "with"; "as"; "are";
      "this"; "that"; "it"; "be"; "or"; "an"; "by"; "from"; "at"; "which" ]%string).

Definition TERMINOS_EXPANSION : gmap str (list str) :=
  list_to_map (map (fun '(k, vs) => (u k, map u vs))
    [ ("transformer", ["encoder"; "decoder"; "attention"; "self-attention"; "multi-head"]);
      ("atención", ["attention"; "query"; "key"; "value"; "QKV"; "self-attention"]);
      ("attention", ["query"; "key"; "value"; "QKV"; "softmax"; "scaled"]);
      ("self-attention", ["query"; "key"; "value"; "auto-atención"]);
      ("auto-atención", ["query"; "key"; "value"; "self-attention"]);
      ("arquitectura", ["encoder"; "decoder"; "capas"; "layers"; "bloques"]);
      ("vectores", ["query"; "key"; "value"; "embedding"; "proyección"]);
      ("proyecta", ["query"; "key"; "value"; "matrices"; "proyección"]);
      ("encoder", ["codificador"; "encoding"; "entrada"]);
      ("decoder", ["decodificador"; "decoding"; "salida"]);
      ("llm", ["modelo"; "language"; "model"; "gpt"; "transformer"]);
      ("embedding", ["vector"; "representación"; "vectorial"]) ]%string).

(** The characters of [strip('¿?.,;:()[]{}...')]; 34 is the double quote. *)
Definition PUNTUACION : str := u "¿?.,;:()[]{}" ++ [34%N] ++ u "'-".

Definition strip_puntuacion (p : str) : str :=
  strip_by (fun c => bool_decide (c ∈ PUNTUACION)) p.

Definition es_candidata (p : str) : bool :=
  (3 <? len p) && negb (bool_decide (strip_puntuacion (lower p) ∈ STOPWORDS)).

Definition es_termino_tecnico (palabra : str) : bool :=
  existsb isupper palabra || existsb isdigit palabra
  || bool_decide (45%N ∈ palabra).

(** [keywords]: the tokens kept by the length and stopword filter. *)
Definition keywords_filtradas (texto : str) : list str :=
  let palabras := split texto in
  map strip_puntuacion (List.filter es_candidata palabras).

(** [terminos_tecnicos]: the tokens with a capital, a digit or a hyphen. *)
Definition terminos_tecnicos (texto : str) : list str :=
  map strip_puntuacion (List.filter es_termino_tecnico (split texto)).

(** The synonyms appended for one keyword. *)
Definition sinonimos (kw : str) : list str :=
  default [] (TERMINOS_EXPANSION !! lower kw).

Definition extraer_keywords (texto : str) : list str :=
  let keywords : list str :=
    elements (list_to_set (keywords_filtradas texto
                           ++ map lower (terminos_tecnicos texto)) : gset str) in
  let keywords_expandidas := keywords ++ flat_map sinonimos keywords in
  elements (list_to_set keywords_expandidas : gset str).

(** ** Retrieval records *)

(** [float('inf')] marks a fragment that has no embedding distance. *)
Inductive Distancia : Type :=
| Dist (d : Q)
| Infinito.

(** An entry of [all_semantic_results] / [fragmentos_data]. The key
    ['score_final'] is absent ([None]) until the scoring pass writes it. *)
Record Fragmento : Type := {
  f_doc : str;
  f_metadata : Metadata;
  f_distancia : Distancia;
  f_id : str;
  score_semantic : Q;
  score_keyword : Q;
  f_matches : list str;
  query_matches : list Z;
  score_final : option Q
}.

(** An entry of [resultados_keyword]. *)
Record ResultadoKeyword : Type := {
  rk_doc : str;
  rk_metadata : Metadata;
  rk_distancia : Distancia;
  keyword_match : str;
  rk_id : str
}.

(** An entry of [resultados] in [busqueda_exhaustiva_texto]. *)
Record ResultadoExhaustivo : Type := {
  re_doc : str;
  re_metadata : Metadata;
  re_id : str;
  re_matches : list str;
  num_matches : Z
}.

(** An entry of [chunks_adicionales] in [ejecutar_chat]. *)
Record Adicional : Type := {
  ad_doc : str;
  ad_metadata : Metadata;
  ad_distancia : Distancia;
  ad_score_final : Q;
  ad_id : str
}.

Abbreviation Hit := (str * Distancia * Metadata)%type.

(** *** Insertion-ordered dictionaries keyed by fragment id *)

Fixpoint dict_get {V} (k : str) (d : list (str * V)) : option V :=
  match d with
  | [] => None
  | (k', v) :: d' => if bool_decide (k' = k) then Some v else dict_get k d'
  end.

(** [d[k][field] = ...] on an existing key: the entry keeps its place. *)
Fixpoint dict_update {V} (k : str) (f : V -> V) (d : list (str * V))
    : list (str * V) :=
  match d with
  | [] => []
  | (k', v) :: d' =>
      if bool_decide (k' = k) then (k', f v) :: d'
      else (k', v) :: dict_update k f d'
  end.

(** [d[k] = v] on a key that is not in [d]: appended last. *)
Definition dict_add {V} (k : str) (v : V) (d : list (str * V))
    : list (str * V) := d ++ [(k, v)].

Definition dict_contains {V} (k : str) (d : list (str * V)) : bool :=
  match dict_get k d with Some _ => true | None => false end.

(** [enumerate(l, start)] *)
Definition enumerate {A} (start : Z) (l : list A) : list (Z * A) :=
  zip (seqZ start (len l)) l.

(** [sep.join(l)] *)
Fixpoint join (sep : str) (l : list str) : str :=
  match l with
  | [] => []
  | [x] => x
  | x :: l' => x ++ sep ++ join sep l'
  end.

(** [sorted(l, key=..., reverse=True)] and [l.sort(key=..., reverse=True)]:
    stable, so [x] stays in front of later elements with an equal key.
    [mayor y x] says that the key of [y] is strictly greater. *)
Fixpoint insertar {A} (mayor : A -> A -> bool) (x : A) (l : list A) : list A :=
  match l with
  | [] => [x]
  | y :: l' => if mayor y x then y :: insertar mayor x l' else x :: y :: l'
  end.

Definition sorted_desc {A} (mayor : A -> A -> bool) (l : list A) : list A :=
  foldr (insertar mayor) [] l.

Definition Qltb (a b : Q) : bool := if Qlt_le_dec a b then true else false.

(** *** Field updates *)

Definition sumar_semantic (x : Q) (q : Z) (f : Fragmento) : Fragmento :=
  {| f_doc := f_doc f; f_metadata := f_metadata f; f_distancia := f_distancia f;
     f_id := f_id f; score_semantic := (score_semantic f + x)%Q;
     score_keyword := score_keyword f; f_matches := f_matches f;
     query_matches := query_matches f ++ [q]; score_final := score_final f |}.

Definition sumar_keyword (x : Q) (ms : list str) (f : Fragmento) : Fragmento :=
  {| f_doc := f_doc f; f_metadata := f_metadata f; f_distancia := f_distancia f;
     f_id := f_id f; score_semantic := score_semantic f;
     score_keyword := (score_keyword f + x)%Q; f_matches := f_matches f ++ ms;
     query_matches := query_matches f; score_final := score_final f |}.

(** [frag['score_final'] = frag['score_semantic'] * 0.6 + frag['score_keyword'] * 0.4] *)
Definition calcular_score_final (f : Fragmento) : Fragmento :=
  {| f_doc := f_doc f; f_metadata := f_metadata f; f_distancia := f_distancia f;
     f_id := f_id f; score_semantic := score_semantic f;
     score_keyword := score_keyword f; f_matches := f_matches f;
     query_matches := query_matches f;
     score_final :=
       Some (score_semantic f * (6 # 10) + score_keyword f * (4 # 10))%Q |}.

(** Reading ['score_final']; every fragment that is ranked carries it. *)
Definition leer_score_final (f : Fragmento) : Q := default 0%Q (score_final f).

(** ** Keyword searcher: case variants *)

Definition iscased (c : N) : bool := isupper c || islower c.

Definition capitalize (s : str) : str :=
  match s with
  | [] => []
  | c :: r => title_char c ++ lower r
  end.

Fixpoint title_aux (previous_cased : bool) (s : str) : str :=
  match s with
  | [] => []
  | c :: r =>
      (if previous_cased then [lower_char c] else title_char c)
        ++ title_aux (iscased c) r
  end.

Definition title (s : str) : str := title_aux false s.

Definition variantes (keyword_base : str) : list str :=
  elements (list_to_set [ keyword_base; lower keyword_base; upper keyword_base;
                          capitalize keyword_base; title keyword_base ] : gset str).

(** ** Exhaustive scanner: whole-word search *)

(** [\w]: alphanumeric or underscore. *)
Definition es_palabra (c : N) : bool :=
  (c =? 95)%N || iscased c || isdigit c || in_range 188 190 c.

(** [\b] at position [j] of [s]. *)
Definition frontera (s : str) (j : nat) : bool :=
  let antes := match j with O => false | S j' => from_option es_palabra false (s !! j') end in
  let despues := from_option es_palabra false (s !! j) in
  xorb antes despues.

(** [re.search(r'\b' + re.escape(termino) + r'\b', s)] as a truth value. *)
Definition re_search_palabra (termino s : str) : bool :=
  existsb (fun i => frontera s i
                    && bool_decide (take (length termino) (drop i s) = termino)
                    && frontera s (i + length termino))
          (seq 0 (S (length s))).

(** ** The store and the retrieval pipeline *)

#[global] Instance outcome_ret : MRet outcome := fun A a => Returns a.

#[global] Instance outcome_bind : MBind outcome := fun A B k m =>
  match m with
  | Returns a => k a
  | Raises e => Raises e
  | OutOfFuel => OutOfFuel
  end.

(** The terms of the technical query variant. *)
Definition TERMINOS_VARIANTE : list str :=
  map u [ "transformer"; "encoder"; "decoder"; "attention";
          "query"; "key"; "value"; "self-attention";
          "auto-atención"; "embedding"; "softmax" ]%string.

(** The terms that trigger the exhaustive scan. *)
Definition TERMINOS_CRITICOS : list str :=
  map u [ "query"; "key"; "value"; "encoder"; "decoder";
          "attention"; "self-attention"; "transformer";
          "codificador"; "decodificador"; "auto-atención";
          "qkv"; "softmax"; "multi-head" ]%string.

Definition en_lista (l : list str) (k : str) : bool := bool_decide (lower k ∈ l).

(** [queries] of [realizar_busqueda_hibrida]. *)
Definition variantes_pregunta (pregunta : str) : list str :=
  let queries := [pregunta] in
  let palabras_clave_pregunta :=
    List.filter (fun p => 4 <? len p) (split pregunta) in
  let queries :=
    if 3 <? len palabras_clave_pregunta
    then queries ++ [join (u " ") (slice palabras_clave_pregunta 0 5)]
    else queries in
  let keywords_expandidas := extraer_keywords pregunta in
  let terminos_tecnicos :=
    List.filter (en_lista TERMINOS_VARIANTE) keywords_expandidas in
  match terminos_tecnicos with
  | [] => queries
  | _ => queries ++ [join (u " ") (slice terminos_tecnicos 0 5)]
  end.

Definition fragmento_nuevo (doc : str) (metadata : Metadata) (d : Distancia)
    (chunk_id : str) (kw : Q) (ms : list str) : Fragmento :=
  {| f_doc := doc; f_metadata := metadata; f_distancia := d; f_id := chunk_id;
     score_semantic := 0; score_keyword := kw; f_matches := ms;
     query_matches := []; score_final := None |}.

(** The body of the inner loop of the semantic search: the hit at 1-based
    rank [idx] of query number [q_idx]. *)
Definition acumular_semantico (q_idx : Z)
    (all_semantic_results : list (str * Fragmento)) (entrada : Z * Hit)
    : list (str * Fragmento) :=
  let '(idx, (doc, distancia, metadata)) := entrada in
  let chunk_id := chunk_id_semantico metadata in
  let all_semantic_results :=
    if dict_contains chunk_id all_semantic_results then all_semantic_results
    else dict_add chunk_id
           (fragmento_nuevo doc metadata distancia chunk_id 0 [])
           all_semantic_results in
  dict_update chunk_id
    (sumar_semantic (1 / inject_Z (idx + 60))%Q (q_idx + 1))
    all_semantic_results.

(** The body of the keyword fusion loop. *)
Definition fusionar_keyword (fragmentos_data : list (str * Fragmento))
    (entrada : Z * ResultadoKeyword) : list (str * Fragmento) :=
  let '(idx, result) := entrada in
  let chunk_id := rk_id result in
  if dict_contains chunk_id fragmentos_data then
    dict_update chunk_id
      (sumar_keyword (1 / inject_Z (idx + 60))%Q [keyword_match result])
      fragmentos_data
  else
    dict_add chunk_id
      (fragmento_nuevo (rk_doc result) (rk_metadata result)
         (rk_distancia result) chunk_id (1 / inject_Z (idx + 60))%Q
         [keyword_match result])
      fragmentos_data.

(** The body of the exhaustive fusion loop. *)
Definition fusionar_exhaustivo (fragmentos_data : list (str * Fragmento))
    (result : ResultadoExhaustivo) : list (str * Fragmento) :=
  let chunk_id := re_id result in
  if dict_contains chunk_id fragmentos_data then
    dict_update chunk_id
      (sumar_keyword ((5 # 10) * inject_Z (num_matches result))%Q
         (re_matches result))
      fragmentos_data
  else
    dict_add chunk_id
      (fragmento_nuevo (re_doc result) (re_metadata result) Infinito chunk_id
         ((5 # 10) * inject_Z (num_matches result))%Q (re_matches result))
      fragmentos_data.

(** [for frag in fragmentos_data.values(): frag['score_final'] = ...] *)
Definition calcular_scores (fragmentos_data : list (str * Fragmento))
    : list (str * Fragmento) :=
  map (fun kv => (kv.1, calcular_score_final kv.2)) fragmentos_data.

(** The last step of [realizar_busqueda_hibrida]. *)
Definition rankear (fragmentos_data : list (str * Fragmento))
    : list Fragmento * Q :=
  let fragmentos_ranked :=
    sorted_desc (fun y x => Qltb (leer_score_final x) (leer_score_final y))
                (map snd fragmentos_data) in
  let mejor_score :=
    match fragmentos_ranked with
    | f :: _ => leer_score_final f
    | [] => 0%Q
    end in
  (fragmentos_ranked, mejor_score).

(** What one question ends in. *)
Inductive Desenlace : Type :=
| InfoNoEncontrada
| FueraDeAmbito
| Respuesta (fragmentos_finales : list (Fragmento + Adicional)).

Section Coleccion.

(** [ollama.embeddings] followed by [collection.query(query_embeddings=...,
    n_results=N_RESULTADOS_SEMANTICOS)]: the hits, nearest first. *)
Variable consulta_semantica : str -> outcome (list Hit).

(** [collection.query(query_texts=[keyword], n_results=...,
    where_document=...)] with the substring filter on [keyword]. *)
Variable consulta_contiene : str -> Z -> outcome (list Hit).

(** [collection.count()] and [collection.get(limit=..., offset=...)]. *)
Variable coleccion_count : Z.
Variable coleccion_get : Z -> Z -> outcome (list (str * Metadata * str)).

(** [collection.get(ids=...)]. *)
Variable coleccion_get_ids : list str -> outcome (list (str * Metadata)).

(** *** [busqueda_por_keywords]

    Besides the result list the model returns the keywords that were sent
    to the store, in the order of the calls. *)
Definition buscar_variante (n_results : Z) (keyword_base : str)
    (estado : list ResultadoKeyword * list str) (keyword : str)
    : list ResultadoKeyword * list str :=
  let '(resultados_keyword, consultas) := estado in
  if len keyword <? 3 then estado
  else
    match consulta_contiene keyword n_results with
    | Returns results =>
        (resultados_keyword
         ++ map (fun '(doc, dist, meta) =>
                   {| rk_doc := doc; rk_metadata := meta; rk_distancia := dist;
                      keyword_match := keyword_base;
                      rk_id := chunk_id_keyword meta |}) results,
         consultas ++ [keyword])
    | _ => (resultados_keyword, consultas ++ [keyword])
    end.

Definition busqueda_por_keywords (pregunta : str) (n_results : Z)
    : list ResultadoKeyword * list str :=
  let keywords := extraer_keywords pregunta in
  match keywords with
  | [] => ([], [])
  | _ =>
      fold_left
        (fun estado keyword_base =>
           fold_left (buscar_variante n_results keyword_base)
                     (variantes keyword_base) estado)
        (slice keywords 0 12) ([], [])
  end.

(** *** [busqueda_exhaustiva_texto] *)
Definition escanear_lote (terminos_criticos : list str)
    (batch : list (str * Metadata * str)) : list ResultadoExhaustivo :=
  omap (fun '(doc, meta, doc_id) =>
          let doc_lower := lower doc in
          let matches_encontrados :=
            List.filter (fun termino => re_search_palabra (lower termino) doc_lower)
                        terminos_criticos in
          match matches_encontrados with
          | [] => None
          | _ => Some {| re_doc := doc; re_metadata := meta; re_id := doc_id;
                         re_matches := matches_encontrados;
                         num_matches := len matches_encontrados |}
          end) batch.

(** [range(0, total_docs, batch_size)] *)
Definition offsets (total_docs batch_size : Z) : list Z :=
  map (fun k => k * batch_size)
      (seqZ 0 ((total_docs + batch_size - 1) / batch_size)).

Definition busqueda_exhaustiva_texto (terminos_criticos : list str)
    (max_results : Z) : list ResultadoExhaustivo :=
  let total_docs := coleccion_count in
  let batch_size := 100 in
  let resultados :=
    flat_map (fun offset =>
                match coleccion_get batch_size offset with
                | Returns batch => escanear_lote terminos_criticos batch
                | _ => []
                end) (offsets total_docs batch_size) in
  slice (sorted_desc (fun y x => num_matches x <? num_matches y) resultados)
        0 max_results.

(** *** [realizar_busqueda_hibrida] *)
Fixpoint busqueda_semantica (queries : list (Z * str))
    (all_semantic_results : list (str * Fragmento))
    : outcome (list (str * Fragmento)) :=
  match queries with
  | [] => Returns all_semantic_results
  | (q_idx, query) :: queries' =>
      results ← consulta_semantica query;
      busqueda_semantica queries'
        (fold_left (acumular_semantico q_idx) (enumerate 1 results)
                   all_semantic_results)
  end.

Definition fusion_keywords (fragmentos_data : list (str * Fragmento))
    (results_keyword : list ResultadoKeyword) : list (str * Fragmento) :=
  fold_left fusionar_keyword (enumerate 1 results_keyword) fragmentos_data.

Definition fusion_exhaustiva (fragmentos_data : list (str * Fragmento))
    (resultados_exhaustivos : list ResultadoExhaustivo)
    : list (str * Fragmento) :=
  fold_left fusionar_exhaustivo resultados_exhaustivos fragmentos_data.

Definition realizar_busqueda_hibrida (pregunta : str)
    : outcome (list Fragmento * Q) :=
  let queries := variantes_pregunta pregunta in
  let keywords_expandidas := extraer_keywords pregunta in
  all_semantic_results ← busqueda_semantica (enumerate 0 queries) [];
  let results_keyword :=
    if USAR_BUSQUEDA_HIBRIDA
    then (busqueda_por_keywords pregunta N_RESULTADOS_KEYWORD).1
    else [] in
  let fragmentos_data := fusion_keywords all_semantic_results results_keyword in
  let fragmentos_data := calcular_scores fragmentos_data in
  let terminos_criticos :=
    List.filter (en_lista TERMINOS_CRITICOS) keywords_expandidas in
  let fragmentos_data :=
    match terminos_criticos with
    | [] => fragmentos_data
    | _ =>
        calcular_scores
          (fusion_exhaustiva fragmentos_data
             (busqueda_exhaustiva_texto terminos_criticos 20))
    end in
  Returns (rankear fragmentos_data).

(** *** One question of [ejecutar_chat] *)
Definition agregar_vecino (estado : list Adicional * gset str)
    (vecino : str * Metadata) : list Adicional * gset str :=
  let '(chunks_adicionales, ids_usados) := estado in
  let '(v_doc, v_meta) := vecino in
  let v_id := v_id_de v_meta in
  if bool_decide (v_id ∈ ids_usados) then estado
  else (chunks_adicionales
        ++ [ {| ad_doc := v_doc; ad_metadata := v_meta;
                ad_distancia := Infinito; ad_score_final := 0; ad_id := v_id |} ],
        ids_usados ∪ {[ v_id ]}).

Definition expandir_fragmento (estado : list Adicional * gset str)
    (frag : Fragmento) : list Adicional * gset str :=
  let ids_vecinos :=
    expandir_con_chunks_adyacentes (f_id frag) (f_metadata frag) 1 in
  match ids_vecinos with
  | [] => estado
  | _ =>
      match coleccion_get_ids ids_vecinos with
      | Returns vecinos => fold_left agregar_vecino vecinos estado
      | _ => estado
      end
  end.

Definition tiene_chunk (fragmentos : list Fragmento) : bool :=
  match fragmentos with
  | f :: _ => bool_decide (is_Some (chunk (f_metadata f)))
  | [] => false
  end.

Definition preparar_contexto (fragmentos_ranked : list Fragmento)
    : list (Fragmento + Adicional) :=
  let fragmentos_finales := slice fragmentos_ranked 0 TOP_K_FINAL in
  let ids_usados : gset str := list_to_set (map f_id fragmentos_finales) in
  if EXPANDIR_CONTEXTO && tiene_chunk fragmentos_finales then
    let chunks_adicionales :=
      (fold_left expandir_fragmento (slice fragmentos_finales 0 6)
                 ([], ids_usados)).1 in
    map inl fragmentos_finales ++ map inr chunks_adicionales
  else map inl fragmentos_finales.

(** The body of the chat loop after the command dispatch; [Respuesta]
    carries the fragments given to [generar_respuesta]. *)
Definition responder (pregunta : str) : outcome Desenlace :=
  r ← realizar_busqueda_hibrida pregunta;
  let '(fragmentos_ranked, mejor_score) := r in
  match fragmentos_ranked with
  | [] => Returns InfoNoEncontrada
  | _ =>
      if Qltb mejor_score UMBRAL_RELEVANCIA then Returns FueraDeAmbito
      else Returns (Respuesta (preparar_contexto fragmentos_ranked))
  end.

End Coleccion.

(** ** Reference quantities of the specification *)



(** The number of passes of the loop over a remainder of [d] characters,
    for the default sizes. *)
Definition candidatos (d : Z) : Z :=
  if d <=? 0 then 0 else Z.max 1 ((d + 399) / 600).


(** The reciprocal-rank contribution of rank [r]. *)
Definition contribucion_rrf (r : Z) : Q := (1 / inject_Z (r + 60))%Q.

(** The contributions a fragment id collects in one result list whose
    first hit has rank [r]: one term for each rank at which it appears. *)
Fixpoint suma_rangos (cid : str) (r : Z) (results : list Hit) : Q :=
  match results with
  | [] => 0%Q
  | hit :: results' =>
      ((if bool_decide (chunk_id_semantico hit.2 = cid)
        then contribucion_rrf r else 0)
       + suma_rangos cid (r + 1) results')%Q
  end.

(** The same, summed over the result lists of all query variants. *)
Definition suma_variantes (cid : str) (listas : list (list Hit)) : Q :=
  foldr (fun results acc => (suma_rangos cid 1 results + acc)%Q) 0%Q listas.

(** The scores of a fragment id in a fragment map; 0 if it has no entry. *)
Definition semantic_de (cid : str) (d : list (str * Fragmento)) : Q :=
  match dict_get cid d with Some f => score_semantic f | None => 0%Q end.

Definition keyword_de (cid : str) (d : list (str * Fragmento)) : Q :=
  match dict_get cid d with Some f => score_keyword f | None => 0%Q end.

Definition final_de (cid : str) (d : list (str * Fragmento)) : Q :=
  match dict_get cid d with Some f => leer_score_final f | None => 0%Q end.

(** ** A small store for the examples

    One document, [spec.pdf], whose page 0 has three chunks; every semantic
    query returns chunk 0, and nothing else answers. *)
Definition meta_ejemplo (k : Z) : Metadata :=
  {| source := u "spec.pdf"; page := 0; chunk := Some k;
     total_chunks_in_page := Some 3 |}.

Definition semantica_ejemplo (query : str) : outcome (list Hit) :=
  Returns [(u "primer fragmento", Dist (1 # 4), meta_ejemplo 0)].

Definition contiene_ejemplo (keyword : str) (n_results : Z)
    : outcome (list Hit) := Returns [].

Definition get_ejemplo (limit offset : Z)
    : outcome (list (str * Metadata * str)) := Returns [].

Definition get_ids_ejemplo (ids : list str) : outcome (list (str * Metadata)) :=
  Raises (u "store").

Definition ranking_ejemplo : list Fragmento * Q :=
  Eval vm_compute in
    match realizar_busqueda_hibrida semantica_ejemplo contiene_ejemplo 0
            get_ejemplo (u "que es") with
    | Returns r => r
    | _ => ([], 0%Q)
    end.

(** A second store over the same page: the three chunks can be scanned,
    searched by substring and fetched by id. *)
Definition corpus_ejemplo : list (str * Metadata * str) :=
  [ (u "primer fragmento", meta_ejemplo 0, id_doc (u "spec.pdf") 0 0);
    (u "Attention is all you need", meta_ejemplo 1, id_doc (u "spec.pdf") 0 1);
    (u "tercer fragmento", meta_ejemplo 2, id_doc (u "spec.pdf") 0 2) ].

Definition get_corpus (limit offset : Z)
    : outcome (list (str * Metadata * str)) :=
  Returns (slice corpus_ejemplo offset (offset + limit)).

Definition contiene_corpus (keyword : str) (n_results : Z)
    : outcome (list Hit) :=
  Returns (omap (fun '(doc, meta, _) =>
                   if re_search_palabra keyword doc
                   then Some (doc, Dist (1 # 2), meta) else None)
                corpus_ejemplo).

Definition get_ids_corpus (ids : list str) : outcome (list (str * Metadata)) :=
  Returns (omap (fun '(doc, meta, id_) =>
                   if bool_decide (id_ ∈ ids) then Some (doc, meta) else None)
                corpus_ejemplo).

Definition id_de_contexto (x : Fragmento + Adicional) : str :=
  match x with inl f => f_id f | inr a => ad_id a end.

(** The number written by a string of decimal digits. *)
Definition valor_decimal (ds : str) : Z :=
  fold_left (fun a d => 10 * a + (Z.of_N d - 48)) ds 0.

Definition es_digito (c : N) : Prop := (48 <= c <= 57)%N.

(** A query sent by the keyword searcher: a case variant, of at least
    three characters, of one of the keywords [primeras]. *)
Definition consulta_valida (primeras : list str) (q : str) : Prop :=
  3 <= len q /\ exists kb, kb ∈ primeras /\ q ∈ variantes kb.

(** A result of the keyword searcher: tagged with the keyword whose variant
    found it, identified from its metadata, and returned by the store for
    that variant. *)
Definition resultado_valido (consulta_contiene : str -> Z -> outcome (list Hit))
    (n_results : Z) (primeras : list str) (r : ResultadoKeyword) : Prop :=
  keyword_match r ∈ primeras
  /\ rk_id r = chunk_id_keyword (rk_metadata r)
  /\ exists q results,
       q ∈ variantes (keyword_match r) /\ 3 <= len q
       /\ consulta_contiene q n_results = Returns results
       /\ (rk_doc r, rk_distancia r, rk_metadata r) ∈ results.

(** [t] occurs in [s] as a contiguous piece. *)
Definition es_infijo (t s : str) : Prop := exists pre post, s = pre ++ t ++ post.

(** What every entry of a fragment map satisfies: it is filed under its own
    identifier and its two partial scores are not negative. *)
Definition entrada_valida (kv : str * Fragmento) : Prop :=
  f_id kv.2 = kv.1
  /\ (0 <= score_semantic kv.2)%Q /\ (0 <= score_keyword kv.2)%Q.

Definition mapa_valido (d : list (str * Fragmento)) : Prop :=
  NoDup (map fst d) /\ Forall entrada_valida d.

(** ** Presentation of the selected fragments *)

(** The two keys that every entry of [fragmentos_finales] has. *)
Definition metadata_de (x : Fragmento + Adicional) : Metadata :=
  match x with inl f => f_metadata f | inr a => ad_metadata a end.

Definition doc_de (x : Fragmento + Adicional) : str :=
  match x with inl f => f_doc f | inr a => ad_doc a end.

Definition salto : str := [10%N].

(** One entry of [contextos_formateados] in
    [construir_contexto_para_modelo]; [i] counts from 1. *)
Definition contexto_formateado (entrada : Z * (Fragmento + Adicional)) : str :=
  let '(i, frag) := entrada in
  let meta := metadata_de frag in
  let referencia :=
    u "[FRAGMENTO " ++ str_int i ++ u "]" ++ salto
    ++ u "📄 Documento: " ++ source meta ++ salto
    ++ u "📃 Página: " ++ str_int (page meta + 1) in
  let referencia :=
    match chunk meta with
    | Some _ =>
        referencia ++ u " | Fragmento: " ++ str_int (default 0 (chunk meta) + 1)
    | None => referencia
    end in
  referencia ++ salto ++ salto ++ doc_de frag.

Definition construir_contexto_para_modelo
    (fragmentos : list (Fragmento + Adicional)) : str :=
  let contextos_formateados := map contexto_formateado (enumerate 1 fragmentos) in
  salto ++ salto ++ repeat 9472%N 50
  ++ join (salto ++ salto) contextos_formateados.

(** [a < b] on strings: by code point, a proper prefix first. *)
Fixpoint str_ltb (a b : str) : bool :=
  match a, b with
  | _, [] => false
  | [], _ :: _ => true
  | x :: a', y :: b' =>
      if (x <? y)%N then true
      else if (y <? x)%N then false
      else str_ltb a' b'
  end.

(** The body of the first loop of [formatear_fuentes_respuesta]. *)
Definition anotar_fuente (fuentes_unicas : list (str * gset Z))
    (frag : Fragmento + Adicional) : list (str * gset Z) :=
  let meta := metadata_de frag in
  let doc := source meta in
  let pagina := page meta + 1 in
  let fuentes_unicas :=
    if dict_contains doc fuentes_unicas then fuentes_unicas
    else dict_add doc ∅ fuentes_unicas in
  dict_update doc (fun paginas => paginas ∪ {[ pagina ]}) fuentes_unicas.

(** [sorted(fuentes_unicas.items())] with the pages of each document
    sorted: ascending, so the comparison handed to the insertion sort is
    "less than". *)
Definition fuentes_ordenadas (fragmentos : list (Fragmento + Adicional))
    : list (str * list Z) :=
  let fuentes_unicas := fold_left anotar_fuente fragmentos [] in
  map (fun '(doc, paginas) =>
         (doc, sorted_desc (fun y x => y <? x) (elements paginas)))
      (sorted_desc (fun y x => str_ltb y.1 x.1) fuentes_unicas).

Definition formatear_fuentes_respuesta
    (fragmentos : list (Fragmento + Adicional)) : str :=
  let lineas :=
    flat_map (fun '(doc, paginas) =>
                let paginas_str := join (u ", ") (map str_int paginas) in
                [ u "  📄 " ++ doc;
                  u "     Páginas consultadas: " ++ paginas_str ])
             (fuentes_ordenadas fragmentos) in
  join salto lineas.


(** [obtener_documentos_indexados]. The argument is the outcome of
    [collection.get(include=['metadatas'])]; the function reads only the
    ['source'] entry of each metadata dictionary, when there is one, so a
    dictionary is given by that entry. Any exception yields the empty
    list. *)
Definition obtener_documentos_indexados
    (all_metadata : outcome (list (option str))) : list str :=
  match all_metadata with
  | Returns metadatas =>
      let documentos : gset str := list_to_set (omap (fun meta => meta) metadatas) in
      sorted_desc (fun y x => str_ltb y x) (elements documentos)
  | _ => []
  end.

(** * Properties *)

(** ** Lists, slices and stripping *)

Lemma len_nonneg {A} (s : list A) : 0 <= len s.
Proof. unfold len. lia. Qed.







(** ** The chunker *)

Section Chunker.

Variable texto : str.
Variables chunk_size overlap : Z.

(** What one pass of the loop does to the offset when it goes on. *)
Lemma iteracion_continua inicio chunks inicio' chunks' :
  iteracion texto chunk_size overlap inicio chunks = inl (inicio', chunks') ->
  inicio < len texto /\ inicio + chunk_size < len texto
  /\ inicio' = inicio + chunk_size - overlap.
Proof.
  unfold iteracion.
  destruct (Z.ltb_spec inicio (len texto)); [|discriminate].
  destruct (Z.leb_spec (len texto) (Z.min (inicio + chunk_size) (len texto)));
    [discriminate|].
  intros [= <- _]. lia.
Qed.

Lemma bucle_mas_fuel fuel fuel' inicio chunks r :
  bucle fuel texto chunk_size overlap inicio chunks = Returns r ->
  (fuel <= fuel')%nat ->
  bucle fuel' texto chunk_size overlap inicio chunks = Returns r.
Proof.
  revert fuel' inicio chunks.
  induction fuel as [|fuel IH]; intros fuel' inicio chunks; simpl.
  - destruct fuel'; simpl;
      destruct (iteracion texto chunk_size overlap inicio chunks) as [[i c]|];
      congruence.
  - destruct fuel' as [|fuel']; [lia|]. simpl.
    destruct (iteracion texto chunk_size overlap inicio chunks) as [[i c]|];
      [|congruence].
    intros H Hle. apply IH; [assumption|lia].
Qed.

Lemma bucle_termina fuel inicio chunks :
  overlap < chunk_size ->
  len texto - inicio <= Z.of_nat fuel ->
  exists r, bucle fuel texto chunk_size overlap inicio chunks = Returns r.
Proof.
  intros Hov. revert inicio chunks.
  induction fuel as [|fuel IH]; intros inicio chunks Hfuel; simpl;
    destruct (iteracion texto chunk_size overlap inicio chunks)
      as [[i c]|r] eqn:E; eauto;
    apply iteracion_continua in E as (? & ? & ->).
  - lia.
  - apply IH. lia.
Qed.

(** With [chunk_size <= overlap] the offset never gets past 0. *)
Lemma bucle_no_avanza fuel inicio chunks :
  chunk_size <= overlap -> inicio <= 0 ->
  0 < len texto -> chunk_size < len texto ->
  bucle fuel texto chunk_size overlap inicio chunks = OutOfFuel.
Proof.
  intros Hov Hi HL Hcs. revert inicio chunks Hi.
  induction fuel as [|fuel IH]; intros inicio chunks Hi; simpl;
    unfold iteracion;
    (destruct (Z.ltb_spec inicio (len texto)); [|lia]);
    (destruct (Z.leb_spec (len texto) (Z.min (inicio + chunk_size) (len texto)));
     [lia|]).
  - reflexivity.
  - apply IH. lia.
Qed.

Lemma bucle_un_paso fuel chunks :
  len texto <= Z.max 0 chunk_size ->
  exists r, bucle fuel texto chunk_size overlap 0 chunks = Returns r.
Proof.
  intros H. destruct fuel; simpl; unfold iteracion;
    (destruct (Z.ltb_spec 0 (len texto)); [|eauto]);
    (destruct (Z.leb_spec (len texto) (Z.min (0 + chunk_size) (len texto)));
     [eauto|lia]).
Qed.

End Chunker.



Lemma candidatos_nonneg d : 0 <= candidatos d.
Proof. unfold candidatos. destruct (d <=? 0); lia. Qed.






(** C9. Whenever [overlap < chunk_size], every pass of the loop that goes on
    strictly increases the offset, and [dividir_en_chunks] returns: fuel
    equal to the length of the text is always enough. *)
Theorem dividir_en_chunks_termina (texto : str) (chunk_size overlap : Z) :
  overlap < chunk_size ->
  (forall inicio chunks inicio' chunks',
      iteracion texto chunk_size overlap inicio chunks = inl (inicio', chunks') ->
      inicio < inicio')
  /\ exists chunks,
       forall fuel, (length texto <= fuel)%nat ->
         dividir_en_chunks fuel texto chunk_size overlap = Returns chunks.
Proof.
  intros Hov. split.
  - intros inicio chunks inicio' chunks' E.
    apply iteracion_continua in E as (_ & _ & ->). lia.
  - destruct (bucle_termina texto chunk_size overlap (length texto) 0 [] Hov)
      as [r Hr]; [unfold len; lia|].
    exists r. intros fuel Hfuel. unfold dividir_en_chunks.
    now apply bucle_mas_fuel with (fuel := length texto).
Qed.

Lemma dividir_en_chunks_termina_witness :
  exists chunks,
    dividir_en_chunks 7 (u "abcdefg") 3 1 = Returns chunks.
Proof.
  destruct (dividir_en_chunks_termina (u "abcdefg") 3 1) as [_ [chunks H]];
    [lia|].
  exists chunks. apply H. vm_compute. lia.
Defined.

(** C2, as the code behaves. [dividir_en_chunks] checks nothing: it never
    raises, and with [chunk_size <= overlap] it returns the one candidate
    slice of a text that fits in [chunk_size] characters and never returns
    on a longer text. *)
Theorem dividir_en_chunks_solapamiento (texto : str) (chunk_size overlap : Z) :
  chunk_size <= overlap ->
  (forall fuel e, dividir_en_chunks fuel texto chunk_size overlap <> Raises e)
  /\ (len texto <= Z.max 0 chunk_size ->
      exists chunks, forall fuel,
        dividir_en_chunks fuel texto chunk_size overlap = Returns chunks)
  /\ (Z.max 0 chunk_size < len texto ->
      forall fuel, dividir_en_chunks fuel texto chunk_size overlap = OutOfFuel).
Proof.
  intros Hov.
  assert (Hcorto : len texto <= Z.max 0 chunk_size ->
            exists chunks, forall fuel,
              dividir_en_chunks fuel texto chunk_size overlap = Returns chunks).
  { intros H. destruct (bucle_un_paso texto chunk_size overlap 0 [] H) as [r Hr].
    exists r. intros fuel. unfold dividir_en_chunks.
    apply bucle_mas_fuel with (fuel := 0%nat); [exact Hr|lia]. }
  assert (Hlargo : Z.max 0 chunk_size < len texto ->
            forall fuel,
              dividir_en_chunks fuel texto chunk_size overlap = OutOfFuel).
  { intros H fuel. unfold dividir_en_chunks.
    apply bucle_no_avanza; lia. }
  split; [|split; assumption].
  intros fuel e.
  destruct (Z.le_gt_cases (len texto) (Z.max 0 chunk_size)) as [H|H].
  - destruct (Hcorto H) as [r Hr]. rewrite Hr. discriminate.
  - rewrite Hlargo by lia. discriminate.
Qed.

Lemma dividir_en_chunks_solapamiento_witness :
  (exists chunks, dividir_en_chunks 0 (u "abc") 5 5 = Returns chunks)
  /\ dividir_en_chunks 9 (u "abcdefg") 3 3 = OutOfFuel.
Proof.
  split.
  - destruct (dividir_en_chunks_solapamiento (u "abc") 5 5) as (_ & H & _);
      [lia|].
    destruct H as [chunks H]; [vm_compute; discriminate|].
    exists chunks. apply H.
  - destruct (dividir_en_chunks_solapamiento (u "abcdefg") 3 3) as (_ & _ & H);
      [lia|].
    apply H. vm_compute. reflexivity.
Defined.

(** C2, refuted as stated. With [chunk_size = overlap = 200] a text of 150
    characters is chunked as usual and no error is reported; with
    [chunk_size = overlap = 100] a text of 300 characters keeps the loop at
    offset 0 for ever. *)
Lemma dividir_en_chunks_no_falla_rapido :
  dividir_en_chunks 0 (repeat 97%N 150) 200 200 = Returns [repeat 97%N 150]
  /\ (forall fuel, dividir_en_chunks fuel (repeat 97%N 300) 100 100 = OutOfFuel).
Proof.
  split; [vm_compute; reflexivity|].
  intros fuel. unfold dividir_en_chunks. apply bucle_no_avanza; try lia.
  - vm_compute. reflexivity.
  - vm_compute. reflexivity.
Qed.




(** ** Fragment identifiers *)

Lemma expandir_ids (cid : str) (metadata : Metadata) (n : Z) (x : str) :
  x ∈ expandir_con_chunks_adyacentes cid metadata n ->
  exists k, x = id_doc (source metadata) (page metadata) k.
Proof.
  unfold expandir_con_chunks_adyacentes. intros H.
  apply elem_of_app in H as [H|H].
  - apply list_elem_of_omap in H as (i & _ & Hi).
    destruct (0 <=? default 0 (chunk metadata) - i); [|discriminate].
    injection Hi as <-. eexists. reflexivity.
  - destruct (total_chunks_in_page metadata) as [total|];
      [|now apply elem_of_nil in H].
    apply list_elem_of_omap in H as (i & _ & Hi).
    destruct (default 0 (chunk metadata) + i <? total); [|discriminate].
    injection Hi as <-. eexists. reflexivity.
Qed.

Lemma indexar_pagina_metadata (archivo : str) (i : Z) (texto : str)
    (id_ doc : str) (meta : Metadata) :
  (id_, doc, meta) ∈ indexar_pagina archivo i texto ->
  exists chunk_idx total,
    id_ = id_doc archivo i chunk_idx
    /\ meta = {| source := archivo; page := i; chunk := Some chunk_idx;
                 total_chunks_in_page := Some total |}.
Proof.
  unfold indexar_pagina.
  destruct (MIN_CHUNK_LENGTH <? len texto); [|intros H; now apply elem_of_nil in H].
  destruct (dividir_en_chunks _ _ _ _) as [chunks| |];
    try (intros H; now apply elem_of_nil in H).
  intros H. apply list_elem_of_lookup in H as [n Hn].
  rewrite list_lookup_imap in Hn.
  destruct (chunks !! n); [|discriminate]. simpl in Hn.
  injection Hn as <- _ <-. eauto.
Qed.

(** C4. For one (document, page, chunk) triple the identifier built by the
    indexer, the identifiers rebuilt from the stored metadata by the
    semantic search, by the keyword search and for fetched neighbours, and
    the identifier the context expander builds for that neighbour index are
    the same string. This holds for every record the indexer stores, and
    every identifier the expander returns is the indexer's identifier of a
    chunk of the same document and page. *)
Theorem ids_identicos (archivo : str) (i chunk_idx : Z) (total : option Z) :
  let meta := {| source := archivo; page := i; chunk := Some chunk_idx;
                 total_chunks_in_page := total |} in
  chunk_id_semantico meta = id_doc archivo i chunk_idx
  /\ chunk_id_keyword meta = id_doc archivo i chunk_idx
  /\ v_id_de meta = id_doc archivo i chunk_idx
  /\ id_adyacente archivo i chunk_idx = id_doc archivo i chunk_idx
  /\ (forall texto id_ doc m,
        (id_, doc, m) ∈ indexar_pagina archivo i texto ->
        chunk_id_semantico m = id_ /\ chunk_id_keyword m = id_ /\ v_id_de m = id_)
  /\ (forall cid n x,
        x ∈ expandir_con_chunks_adyacentes cid meta n ->
        exists k, x = id_doc archivo i k).
Proof.
  simpl. repeat split; try reflexivity.
  - apply indexar_pagina_metadata in H as (c & t & -> & ->). reflexivity.
  - apply indexar_pagina_metadata in H as (c & t & -> & ->). reflexivity.
  - apply indexar_pagina_metadata in H as (c & t & -> & ->). reflexivity.
  - intros cid n x H. apply expandir_ids in H. exact H.
Qed.

Lemma ids_identicos_witness :
  chunk_id_semantico
    {| source := u "spec.pdf"; page := 0; chunk := Some 1;
       total_chunks_in_page := Some 3 |} = u "spec.pdf_pag0_chunk1"
  /\ exists k, u "spec.pdf_pag0_chunk2" = id_doc (u "spec.pdf") 0 k.
Proof.
  destruct (ids_identicos (u "spec.pdf") 0 1 (Some 3)) as (H1 & _ & _ & _ & _ & H6).
  split.
  - rewrite H1. vm_compute. reflexivity.
  - apply (H6 [] 1). vm_compute. apply list_elem_of_In. simpl. tauto.
Defined.

(** C8. With one neighbour on each side, a fragment with [chunk = 2] in a
    page of 5 chunks expands to the identifiers of chunks 1 and 3, in this
    order; a fragment with [chunk = 0] in a page of more than one chunk
    expands to the identifier of chunk 1 only. *)
Theorem expandir_vecinos (cid archivo : str) (pagina : Z) :
  expandir_con_chunks_adyacentes cid
    {| source := archivo; page := pagina; chunk := Some 2;
       total_chunks_in_page := Some 5 |} 1
  = [id_doc archivo pagina 1; id_doc archivo pagina 3]
  /\ (forall total, 1 < total ->
        expandir_con_chunks_adyacentes cid
          {| source := archivo; page := pagina; chunk := Some 0;
             total_chunks_in_page := Some total |} 1
        = [id_doc archivo pagina 1]).
Proof.
  split; [reflexivity|].
  intros total Htotal. unfold expandir_con_chunks_adyacentes. simpl.
  change (0 + (Z.of_nat 0 + 1)) with 1.
  destruct (Z.ltb_spec 1 total); [reflexivity|lia].
Qed.

Lemma expandir_vecinos_witness :
  expandir_con_chunks_adyacentes (u "spec.pdf_pag0_chunk0")
    {| source := u "spec.pdf"; page := 0; chunk := Some 0;
       total_chunks_in_page := Some 3 |} 1
  = [u "spec.pdf_pag0_chunk1"].
Proof.
  destruct (expandir_vecinos (u "spec.pdf_pag0_chunk0") (u "spec.pdf") 0)
    as [_ H].
  rewrite H by lia. vm_compute. reflexivity.
Defined.

(** ** The keyword extractor *)

Lemma isupper_lower_char (c : N) : isupper (lower_char c) = false.
Proof.
  unfold lower_char. destruct (isupper c) eqn:E; [|exact E].
  unfold isupper, in_range in *.
  rewrite !orb_true_iff, !andb_true_iff, !N.leb_le in E.
  rewrite !orb_false_iff, !andb_false_iff, !N.leb_gt. lia.
Qed.

Lemma lower_idempotente (s : str) : lower (lower s) = lower s.
Proof.
  unfold lower. rewrite map_map. apply map_ext. intros c.
  unfold lower_char at 1. now rewrite isupper_lower_char.
Qed.

Lemma elem_of_flat_map_sinonimos (k : str) (l : list str) :
  k ∈ flat_map sinonimos l <-> exists kw, kw ∈ l /\ k ∈ sinonimos kw.
Proof.
  rewrite list_elem_of_In, in_flat_map. split.
  - intros (kw & H1 & H2). exists kw. now rewrite !list_elem_of_In.
  - intros (kw & H1 & H2). exists kw. now rewrite <- !list_elem_of_In.
Qed.

(** C6, as the code behaves. The result of [extraer_keywords] has no
    duplicates and consists of the filtered tokens with their punctuation
    stripped (case unchanged), the lowercased technical terms, and the
    synonyms the table lists for any of those (as the table spells them).
    The lowercased technical terms are lowercase. *)
Theorem extraer_keywords_contenido (texto : str) :
  NoDup (extraer_keywords texto)
  /\ (forall k,
        k ∈ extraer_keywords texto <->
        k ∈ keywords_filtradas texto
        \/ k ∈ map lower (terminos_tecnicos texto)
        \/ exists kw,
             (kw ∈ keywords_filtradas texto
              \/ kw ∈ map lower (terminos_tecnicos texto))
             /\ k ∈ sinonimos kw)
  /\ (forall k, k ∈ map lower (terminos_tecnicos texto) -> lower k = k).
Proof.
  split; [unfold extraer_keywords; apply NoDup_elements|]. split.
  - intros k. unfold extraer_keywords.
    rewrite elem_of_elements, elem_of_list_to_set, elem_of_app,
      elem_of_flat_map_sinonimos.
    setoid_rewrite elem_of_elements.
    setoid_rewrite elem_of_list_to_set.
    setoid_rewrite elem_of_app.
    tauto.
  - intros k Hk. apply list_elem_of_In, in_map_iff in Hk as (t & <- & _).
    apply lower_idempotente.
Qed.

Lemma extraer_keywords_contenido_witness :
  u "gpt-4" ∈ extraer_keywords (u "usa GPT-4 hoy") /\ lower (u "gpt-4") = u "gpt-4".
Proof.
  destruct (extraer_keywords_contenido (u "usa GPT-4 hoy")) as (_ & Hin & Hlow).
  assert (H : u "gpt-4" ∈ map lower (terminos_tecnicos (u "usa GPT-4 hoy"))).
  { vm_compute. apply list_elem_of_In. simpl. tauto. }
  split.
  - apply Hin. right. left. exact H.
  - apply Hlow. exact H.
Defined.

(** C6, refuted as stated. The token [Transformer] is returned with its
    capital, and the synonym [QKV] of [attention] is returned in capitals. *)
Lemma extraer_keywords_no_minusculas :
  (u "Transformer" ∈ extraer_keywords (u "Transformer")
   /\ lower (u "Transformer") <> u "Transformer")
  /\ (u "QKV" ∈ extraer_keywords (u "attention")
      /\ lower (u "QKV") <> u "QKV").
Proof.
  repeat split;
    try (apply (bool_decide_unpack _); vm_compute; exact I);
    vm_compute; discriminate.
Qed.

(** ** The keyword searcher *)

(** C10. When [extraer_keywords] finds no keyword in the question,
    [busqueda_por_keywords] returns the empty result list and sends no
    query to the store. *)
Theorem busqueda_por_keywords_sin_keywords
    (consulta_contiene : str -> Z -> outcome (list Hit))
    (pregunta : str) (n_results : Z) :
  extraer_keywords pregunta = [] ->
  busqueda_por_keywords consulta_contiene pregunta n_results = ([], []).
Proof. intros H. unfold busqueda_por_keywords. now rewrite H. Qed.

Lemma busqueda_por_keywords_sin_keywords_witness :
  busqueda_por_keywords (fun _ _ => Raises (u "store")) (u "que es") 20 = ([], []).
Proof.
  apply busqueda_por_keywords_sin_keywords. vm_compute. reflexivity.
Defined.

(** ** Dictionaries and enumeration *)

Lemma dict_get_update {V} (k k' : str) (f : V -> V) (d : list (str * V)) :
  dict_get k (dict_update k' f d)
  = if bool_decide (k' = k) then f <$> dict_get k d else dict_get k d.
Proof.
  induction d as [|[k0 v] d IH]; simpl.
  - now destruct (bool_decide (k' = k)).
  - repeat (case_bool_decide; simpl; simplify_eq); try reflexivity; try congruence;
      rewrite IH; repeat (case_bool_decide; simplify_eq); try reflexivity;
      congruence.
Qed.

Lemma dict_get_add {V} (k k' : str) (v : V) (d : list (str * V)) :
  dict_get k (dict_add k' v d)
  = match dict_get k d with
    | Some x => Some x
    | None => if bool_decide (k' = k) then Some v else None
    end.
Proof.
  unfold dict_add. induction d as [|[k0 v0] d IH]; simpl.
  - reflexivity.
  - destruct (bool_decide (k0 = k)); [reflexivity|exact IH].
Qed.

Lemma enumerate_nil {A} (s : Z) : enumerate s (@nil A) = [].
Proof. reflexivity. Qed.

Lemma enumerate_cons {A} (s : Z) (x : A) (l : list A) :
  enumerate s (x :: l) = (s, x) :: enumerate (s + 1) l.
Proof.
  unfold enumerate. rewrite seqZ_cons by (unfold len; simpl; lia).
  replace (Z.pred (len (x :: l))) with (len l) by (unfold len; simpl; lia).
  now rewrite Z.add_1_r.
Qed.

Lemma enumerate_app {A} (l : list A) (x : A) (s : Z) :
  enumerate s (l ++ [x]) = enumerate s l ++ [(s + len l, x)].
Proof.
  revert s. induction l as [|y l IH]; intros s; simpl.
  - rewrite enumerate_cons, !enumerate_nil. simpl.
    now replace (s + len []) with s by (unfold len; simpl; lia).
  - rewrite !enumerate_cons, IH. simpl.
    now replace (s + len (y :: l)) with (s + 1 + len l)
      by (unfold len; simpl; lia).
Qed.

Lemma contribucion_rrf_nonneg (r : Z) : 0 <= r -> (0 <= contribucion_rrf r)%Q.
Proof.
  intros H. unfold contribucion_rrf, Qdiv. rewrite Qmult_1_l.
  apply Qinv_le_0_compat. unfold Qle. simpl. lia.
Qed.

(** ** Reciprocal-rank accumulation of the semantic search *)

Lemma semantic_acumular (q_idx : Z) (all : list (str * Fragmento))
    (idx : Z) (hit : Hit) (cid : str) :
  (semantic_de cid (acumular_semantico q_idx all (idx, hit))
   == semantic_de cid all
      + (if bool_decide (chunk_id_semantico hit.2 = cid)
         then 1 / inject_Z (idx + 60) else 0))%Q.
Proof.
  destruct hit as [[doc dist] meta]. unfold acumular_semantico, semantic_de.
  simpl. unfold dict_contains.
  destruct (dict_get (chunk_id_semantico meta) all) as [f0|] eqn:E.
  - rewrite dict_get_update. case_bool_decide as Hk.
    + subst cid. rewrite E. simpl. reflexivity.
    + destruct (dict_get cid all); now rewrite Qplus_0_r.
  - rewrite dict_get_update, dict_get_add. case_bool_decide as Hk.
    + subst cid. rewrite E. simpl. reflexivity.
    + destruct (dict_get cid all); simpl; now rewrite Qplus_0_r.
Qed.

Lemma semantic_fold (q_idx : Z) (cid : str) (results : list Hit) :
  forall (s : Z) (all : list (str * Fragmento)),
    (semantic_de cid
       (fold_left (acumular_semantico q_idx) (enumerate s results) all)
     == semantic_de cid all + suma_rangos cid s results)%Q.
Proof.
  induction results as [|hit results IH]; intros s all.
  - simpl. now rewrite Qplus_0_r.
  - rewrite enumerate_cons. cbn [fold_left suma_rangos].
    rewrite IH, semantic_acumular.
    unfold contribucion_rrf. now rewrite Qplus_assoc.
Qed.

Lemma busqueda_semantica_suma (consulta_semantica : str -> outcome (list Hit))
    (queries : list str) (listas : list (list Hit)) :
  Forall2 (fun q l => consulta_semantica q = Returns l) queries listas ->
  forall (s : Z) (all : list (str * Fragmento)),
  exists all',
    busqueda_semantica consulta_semantica (enumerate s queries) all = Returns all'
    /\ forall cid,
         (semantic_de cid all' == semantic_de cid all + suma_variantes cid listas)%Q.
Proof.
  induction 1 as [|q l queries listas Hq _ IH]; intros s all.
  - exists all. split; [reflexivity|]. intros cid. simpl. now rewrite Qplus_0_r.
  - rewrite enumerate_cons. cbn [busqueda_semantica]. rewrite Hq.
    cbn [mbind outcome_bind].
    destruct (IH (s + 1)
                (fold_left (acumular_semantico s) (enumerate 1 l) all))
      as (all' & Hrun & Hsum).
    exists all'. split; [exact Hrun|].
    intros cid. rewrite Hsum, semantic_fold. cbn [suma_variantes foldr].
    now rewrite Qplus_assoc.
Qed.

(** C5. In the semantic search the hit at 1-based rank [idx] of a query
    variant adds exactly [1 / (idx + 60)] to the semantic score of its
    fragment and nothing to the others; after all variants have been
    searched, the semantic score of every fragment is the sum of these
    contributions over all the ranks at which it appears in all the result
    lists. *)
Theorem rrf_semantico (consulta_semantica : str -> outcome (list Hit)) :
  (forall q_idx all idx hit cid,
      (semantic_de cid (acumular_semantico q_idx all (idx, hit))
       == semantic_de cid all
          + (if bool_decide (chunk_id_semantico hit.2 = cid)
             then 1 / inject_Z (idx + 60) else 0))%Q)
  /\ (forall queries listas,
        Forall2 (fun q l => consulta_semantica q = Returns l) queries listas ->
        exists all,
          busqueda_semantica consulta_semantica (enumerate 0 queries) []
            = Returns all
          /\ forall cid, (semantic_de cid all == suma_variantes cid listas)%Q).
Proof.
  split.
  - intros. apply semantic_acumular.
  - intros queries listas H.
    destruct (busqueda_semantica_suma consulta_semantica queries listas H 0 [])
      as (all & Hrun & Hsum).
    exists all. split; [exact Hrun|].
    intros cid. rewrite Hsum. unfold semantic_de. simpl. apply Qplus_0_l.
Qed.

(** ** Fusion of keyword and exhaustive hits *)

Lemma dict_get_calcular (cid : str) (d : list (str * Fragmento)) :
  dict_get cid (calcular_scores d) = calcular_score_final <$> dict_get cid d.
Proof.
  induction d as [|[k v] d IH]; simpl; [reflexivity|].
  destruct (bool_decide (k = cid)); [reflexivity|exact IH].
Qed.

Lemma final_calcular (cid : str) (d : list (str * Fragmento)) :
  (final_de cid (calcular_scores d)
   == semantic_de cid d * (6 # 10) + keyword_de cid d * (4 # 10))%Q.
Proof.
  unfold final_de, semantic_de, keyword_de. rewrite dict_get_calcular.
  destruct (dict_get cid d); simpl; reflexivity.
Qed.

(** What adding [x] to the keyword score of [k], creating the entry when
    it is missing, does to the scores. *)
Lemma keyword_sumar (d : list (str * Fragmento)) (k cid : str) (x : Q)
    (ms : list str) (nuevo : Fragmento) :
  score_semantic nuevo = 0%Q -> score_keyword nuevo = x ->
  let d' := if dict_contains k d then dict_update k (sumar_keyword x ms) d
            else dict_add k nuevo d in
  (keyword_de cid d' == keyword_de cid d + (if bool_decide (k = cid) then x else 0))%Q
  /\ (semantic_de cid d' == semantic_de cid d)%Q.
Proof.
  intros Hs Hk. unfold dict_contains, keyword_de, semantic_de. simpl.
  destruct (dict_get k d) as [f0|] eqn:E.
  - rewrite dict_get_update. case_bool_decide as Hc.
    + subst cid. rewrite E. simpl. split; reflexivity.
    + destruct (dict_get cid d); split; try reflexivity; now rewrite Qplus_0_r.
  - rewrite dict_get_add. case_bool_decide as Hc.
    + subst cid. rewrite E, Hs, Hk. split; [now rewrite Qplus_0_l|reflexivity].
    + destruct (dict_get cid d); split; try reflexivity; now rewrite Qplus_0_r.
Qed.

Lemma keyword_fusionar (d : list (str * Fragmento)) (idx : Z)
    (result : ResultadoKeyword) (cid : str) :
  (keyword_de cid (fusionar_keyword d (idx, result))
   == keyword_de cid d
      + (if bool_decide (rk_id result = cid) then contribucion_rrf idx else 0))%Q
  /\ (semantic_de cid (fusionar_keyword d (idx, result)) == semantic_de cid d)%Q.
Proof. unfold fusionar_keyword. now apply keyword_sumar. Qed.

Lemma keyword_fusionar_exhaustivo (d : list (str * Fragmento))
    (result : ResultadoExhaustivo) (cid : str) :
  (keyword_de cid (fusionar_exhaustivo d result)
   == keyword_de cid d
      + (if bool_decide (re_id result = cid)
         then (5 # 10) * inject_Z (num_matches result) else 0))%Q
  /\ (semantic_de cid (fusionar_exhaustivo d result) == semantic_de cid d)%Q.
Proof. unfold fusionar_exhaustivo. now apply keyword_sumar. Qed.

Lemma fusion_keywords_app (d : list (str * Fragmento))
    (results : list ResultadoKeyword) (hit : ResultadoKeyword) :
  fusion_keywords d (results ++ [hit])
  = fusionar_keyword (fusion_keywords d results) (1 + len results, hit).
Proof.
  unfold fusion_keywords. now rewrite enumerate_app, fold_left_app.
Qed.

Lemma fusion_exhaustiva_app (d : list (str * Fragmento))
    (results : list ResultadoExhaustivo) (hit : ResultadoExhaustivo) :
  fusion_exhaustiva d (results ++ [hit])
  = fusionar_exhaustivo (fusion_exhaustiva d results) hit.
Proof. unfold fusion_exhaustiva. now rewrite fold_left_app. Qed.

(** C7. Appending one keyword hit to the keyword results never decreases
    the final score of any fragment, in particular of the fragment that was
    hit; appending one exhaustive-scan match never decreases the keyword
    score of any fragment. *)
Theorem fusion_monotona :
  (forall d results hit cid,
      (final_de cid (calcular_scores (fusion_keywords d results))
       <= final_de cid (calcular_scores (fusion_keywords d (results ++ [hit]))))%Q)
  /\ (forall d idx hit,
        (keyword_de (rk_id hit) (fusionar_keyword d (idx, hit))
         == keyword_de (rk_id hit) d + 1 / inject_Z (idx + 60))%Q)
  /\ (forall d results hit cid,
        0 <= num_matches hit ->
        (keyword_de cid (fusion_exhaustiva d results)
         <= keyword_de cid (fusion_exhaustiva d (results ++ [hit])))%Q)
  /\ (forall d hit,
        (keyword_de (re_id hit) (fusionar_exhaustivo d hit)
         == keyword_de (re_id hit) d + (5 # 10) * inject_Z (num_matches hit))%Q).
Proof.
  split; [|split; [|split]].
  - intros d results hit cid.
    rewrite !final_calcular, fusion_keywords_app.
    destruct (keyword_fusionar (fusion_keywords d results)
                (1 + len results) hit cid) as [Hk Hs].
    rewrite Hk, Hs. apply Qplus_le_r. apply Qmult_le_compat_r; [|discriminate].
    rewrite <- (Qplus_0_r (keyword_de cid (fusion_keywords d results))) at 1.
    apply Qplus_le_r. case_bool_decide; [|apply Qle_refl].
    apply contribucion_rrf_nonneg. pose proof (len_nonneg results). lia.
  - intros d idx hit.
    destruct (keyword_fusionar d idx hit (rk_id hit)) as [Hk _].
    rewrite Hk. now rewrite bool_decide_eq_true_2.
  - intros d results hit cid Hn.
    rewrite fusion_exhaustiva_app.
    destruct (keyword_fusionar_exhaustivo (fusion_exhaustiva d results) hit cid)
      as [Hk _].
    rewrite Hk.
    rewrite <- (Qplus_0_r (keyword_de cid (fusion_exhaustiva d results))) at 1.
    apply Qplus_le_r. case_bool_decide; [|apply Qle_refl].
    apply Qmult_le_0_compat; [discriminate|].
    unfold Qle. simpl. lia.
  - intros d hit.
    destruct (keyword_fusionar_exhaustivo d hit (re_id hit)) as [Hk _].
    rewrite Hk. now rewrite bool_decide_eq_true_2.
Qed.

Lemma rrf_semantico_witness :
  let hit := (u "texto", Dist 0, {| source := u "spec.pdf"; page := 0;
                                    chunk := Some 1;
                                    total_chunks_in_page := Some 3 |}) in
  exists all,
    busqueda_semantica (fun _ => Returns [hit; hit]) (enumerate 0 [u "q1"; u "q2"]) []
      = Returns all
    /\ (semantic_de (u "spec.pdf_pag0_chunk1") all
        == 1 / 61 + 1 / 62 + (1 / 61 + 1 / 62))%Q.
Proof.
  intros hit.
  destruct (rrf_semantico (fun _ => Returns [hit; hit])) as [_ H].
  destruct (H [u "q1"; u "q2"] [[hit; hit]; [hit; hit]]) as (all & Hrun & Hsum).
  - repeat constructor.
  - exists all. split; [exact Hrun|].
    rewrite Hsum. vm_compute. reflexivity.
Defined.

Lemma fusion_monotona_witness :
  let hit := {| re_doc := u "texto"; re_metadata :=
                  {| source := u "spec.pdf"; page := 0; chunk := Some 1;
                     total_chunks_in_page := Some 3 |};
                re_id := u "spec.pdf_pag0_chunk1";
                re_matches := [u "query"; u "key"]; num_matches := 2 |} in
  (keyword_de (u "spec.pdf_pag0_chunk1") (fusion_exhaustiva [] [])
   <= keyword_de (u "spec.pdf_pag0_chunk1") (fusion_exhaustiva [] ([] ++ [hit])))%Q.
Proof.
  intros hit. destruct fusion_monotona as (_ & _ & H & _).
  apply H. simpl. lia.
Defined.

(** ** Ranking *)

Lemma Qltb_true (a b : Q) : Qltb a b = true <-> (a < b)%Q.
Proof.
  unfold Qltb. destruct (Qlt_le_dec a b) as [H|H]; split; try tauto.
  - discriminate.
  - intros H'. exfalso. exact (Qlt_not_le _ _ H' H).
Qed.

Lemma insertar_elem {A} (mayor : A -> A -> bool) (x y : A) (l : list A) :
  y ∈ insertar mayor x l <-> y = x \/ y ∈ l.
Proof.
  induction l as [|z l IH]; simpl.
  - rewrite list_elem_of_singleton, elem_of_nil. tauto.
  - destruct (mayor z x); rewrite !elem_of_cons; [rewrite IH|]; tauto.
Qed.

Lemma sorted_desc_elem {A} (mayor : A -> A -> bool) (y : A) (l : list A) :
  y ∈ sorted_desc mayor l <-> y ∈ l.
Proof.
  induction l as [|x l IH]; simpl; [reflexivity|].
  rewrite insertar_elem, elem_of_cons, IH. reflexivity.
Qed.

Lemma slice_elem {A} (x : A) (l : list A) (i j : Z) : x ∈ slice l i j -> x ∈ l.
Proof.
  unfold slice. intros H. apply subseteq_take in H. now apply subseteq_drop in H.
Qed.

Section Orden.

Context {A : Type} (key : A -> Q).

Let mayor (y x : A) : bool := Qltb (key x) (key y).
Let antes (a b : A) : Prop := (key b <= key a)%Q.

Lemma insertar_ordenada (x : A) (l : list A) :
  StronglySorted antes l -> StronglySorted antes (insertar mayor x l).
Proof.
  induction 1 as [|z l Hl IH Hz]; simpl.
  - repeat constructor.
  - destruct (mayor z x) eqn:E.
    + constructor; [exact IH|].
      apply Forall_forall. intros y Hy. apply insertar_elem in Hy as [->|Hy].
      * apply Qlt_le_weak, Qltb_true, E.
      * rewrite Forall_forall in Hz. now apply Hz.
    + assert (Hzx : antes x z).
      { unfold antes. destruct (Qlt_le_dec (key x) (key z)) as [H|H]; [|exact H].
        apply Qltb_true in H. unfold mayor in E. congruence. }
      constructor; [now constructor|].
      constructor; [exact Hzx|].
      eapply Forall_impl; [exact Hz|]. intros y Hy. unfold antes in *.
      now apply Qle_trans with (key z).
Qed.

Lemma sorted_desc_ordenada (l : list A) :
  StronglySorted antes (sorted_desc mayor l).
Proof.
  induction l as [|x l IH]; simpl; [constructor|now apply insertar_ordenada].
Qed.

Lemma sorted_desc_primero (l : list A) (top : A) (resto : list A) :
  sorted_desc mayor l = top :: resto ->
  forall y, y ∈ l -> (key y <= key top)%Q.
Proof.
  intros E y Hy. pose proof (sorted_desc_ordenada l) as Hs.
  apply (sorted_desc_elem mayor) in Hy. rewrite E in Hs, Hy.
  apply StronglySorted_inv in Hs as [_ Hall].
  apply elem_of_cons in Hy as [->|Hy]; [apply Qle_refl|].
  rewrite Forall_forall in Hall. now apply Hall.
Qed.

End Orden.

(** ** The exhaustive scanner *)

(** Every result of the scan records at least one match, and its count is
    the length of its match list. *)
Lemma busqueda_exhaustiva_texto_num_matches (coleccion_count : Z)
    (coleccion_get : Z -> Z -> outcome (list (str * Metadata * str)))
    (terminos_criticos : list str) (max_results : Z)
    (r : ResultadoExhaustivo) :
  r ∈ busqueda_exhaustiva_texto coleccion_count coleccion_get
        terminos_criticos max_results ->
  num_matches r = len (re_matches r) /\ 1 <= num_matches r.
Proof.
  unfold busqueda_exhaustiva_texto. intros H.
  apply slice_elem, sorted_desc_elem in H.
  apply list_elem_of_In, in_flat_map in H as (offset & _ & H).
  destruct (coleccion_get 100 offset) as [batch| |]; try contradiction.
  apply list_elem_of_In in H. unfold escanear_lote in H.
  apply list_elem_of_omap in H as ([[doc meta] doc_id] & _ & H).
  destruct (List.filter _ terminos_criticos) as [|m ms]; [discriminate|].
  injection H as <-. simpl. unfold len. simpl. lia.
Qed.

(** ** The relevance gate *)

Section Puerta.

Variable consulta_semantica : str -> outcome (list Hit).
Variable consulta_contiene : str -> Z -> outcome (list Hit).
Variable coleccion_count : Z.
Variable coleccion_get : Z -> Z -> outcome (list (str * Metadata * str)).
Variable coleccion_get_ids : list str -> outcome (list (str * Metadata)).

Let buscar :=
  realizar_busqueda_hibrida consulta_semantica consulta_contiene
    coleccion_count coleccion_get.
Let contestar :=
  responder consulta_semantica consulta_contiene coleccion_count
    coleccion_get coleccion_get_ids.

Lemma realizar_busqueda_hibrida_rankear (pregunta : str)
    (r : list Fragmento * Q) :
  buscar pregunta = Returns r -> exists fragmentos_data, r = rankear fragmentos_data.
Proof.
  unfold buscar, realizar_busqueda_hibrida.
  destruct (busqueda_semantica _ _ _) as [all| |]; cbn [mbind outcome_bind];
    [|discriminate|discriminate].
  intros [= <-]. eexists. reflexivity.
Qed.

Lemma rankear_primero (fragmentos_data : list (str * Fragmento))
    (top : Fragmento) (resto : list Fragmento) (mejor_score : Q) :
  rankear fragmentos_data = (top :: resto, mejor_score) ->
  mejor_score = leer_score_final top
  /\ forall f, f ∈ top :: resto -> (leer_score_final f <= leer_score_final top)%Q.
Proof.
  unfold rankear. intros E.
  destruct (sorted_desc _ _) as [|top' resto'] eqn:Es; [discriminate|].
  injection E as -> -> <-. split; [reflexivity|].
  intros f Hf.
  apply (sorted_desc_primero leer_score_final _ _ _ Es).
  rewrite <- Es in Hf. now apply sorted_desc_elem in Hf.
Qed.

Lemma preparar_contexto_seleccion (fragmentos_ranked : list Fragmento) :
  exists chunks_adicionales,
    preparar_contexto coleccion_get_ids fragmentos_ranked
    = map inl (slice fragmentos_ranked 0 TOP_K_FINAL)
      ++ map inr chunks_adicionales.
Proof.
  unfold preparar_contexto.
  destruct (EXPANDIR_CONTEXTO && tiene_chunk _).
  - eexists. reflexivity.
  - exists []. simpl. now rewrite app_nil_r.
Qed.

(** C1. Given the ranked list and the best score that the hybrid search
    returns for a question: an empty list ends in "no information found"; a
    non-empty list, whose first fragment carries the greatest final score,
    ends in "out of scope" when that score is below [UMBRAL_RELEVANCIA],
    and otherwise goes on to the selection of the first [TOP_K_FINAL]
    fragments, the context expansion and the generation. *)
Theorem responder_umbral (pregunta : str) (fragmentos_ranked : list Fragmento)
    (mejor_score : Q) :
  buscar pregunta = Returns (fragmentos_ranked, mejor_score) ->
  (fragmentos_ranked = [] -> contestar pregunta = Returns InfoNoEncontrada)
  /\ (forall top resto,
        fragmentos_ranked = top :: resto ->
        mejor_score = leer_score_final top
        /\ (forall f, f ∈ fragmentos_ranked ->
              (leer_score_final f <= leer_score_final top)%Q)
        /\ ((leer_score_final top < UMBRAL_RELEVANCIA)%Q ->
            contestar pregunta = Returns FueraDeAmbito)
        /\ ((UMBRAL_RELEVANCIA <= leer_score_final top)%Q ->
            contestar pregunta
            = Returns (Respuesta
                         (preparar_contexto coleccion_get_ids fragmentos_ranked))
            /\ exists chunks_adicionales,
                 preparar_contexto coleccion_get_ids fragmentos_ranked
                 = map inl (slice fragmentos_ranked 0 TOP_K_FINAL)
                   ++ map inr chunks_adicionales)).
Proof.
  intros Hb. split.
  - intros ->. unfold contestar, responder. fold buscar. now rewrite Hb.
  - intros top resto ->.
    destruct (realizar_busqueda_hibrida_rankear _ _ Hb) as [d Hd].
    symmetry in Hd. apply rankear_primero in Hd as [-> Hmax].
    split; [reflexivity|]. split; [exact Hmax|].
    unfold contestar, responder. fold buscar. rewrite Hb.
    cbn [mbind outcome_bind]. split.
    + intros Hlt. apply Qltb_true in Hlt. now rewrite Hlt.
    + intros Hge. split; [|apply preparar_contexto_seleccion].
      destruct (Qltb (leer_score_final top) UMBRAL_RELEVANCIA) eqn:E;
        [|reflexivity].
      apply Qltb_true in E. exfalso. exact (Qlt_not_le _ _ E Hge).
Qed.

End Puerta.

Lemma responder_umbral_witness :
  responder semantica_ejemplo contiene_ejemplo 0 get_ejemplo get_ids_ejemplo
    (u "que es") = Returns FueraDeAmbito.
Proof.
  destruct (responder_umbral semantica_ejemplo contiene_ejemplo 0 get_ejemplo
              get_ids_ejemplo (u "que es") ranking_ejemplo.1 ranking_ejemplo.2)
    as [_ H].
  - vm_compute. reflexivity.
  - destruct (H (hd (fragmento_nuevo [] (meta_ejemplo 0) Infinito [] 0 [])
                    ranking_ejemplo.1)
                (tl ranking_ejemplo.1)) as (_ & _ & Hfuera & _).
    + vm_compute. reflexivity.
    + apply Hfuera. vm_compute. reflexivity.
Defined.

(** ** Worked examples *)

Example str_int_ejemplos :
  str_int 120 = u "120" /\ str_int (-7) = u "-7" /\ str_int 0 = u "0".
Proof. vm_compute. auto. Qed.

Example u_ejemplo : u "más" = [109; 225; 115]%N.
Proof. vm_compute. reflexivity. Qed.

Example split_ejemplo :
  split (u "  hola  que tal ") = [u "hola"; u "que"; u "tal"].
Proof. vm_compute. reflexivity. Qed.

Example strip_puntuacion_ejemplo :
  strip_puntuacion (u "¿Transformer?") = u "Transformer".
Proof. vm_compute. reflexivity. Qed.

Example dividir_en_chunks_ejemplo :
  dividir_en_chunks 5 (repeat 97%N 1401) CHUNK_SIZE CHUNK_OVERLAP
  = Returns [repeat 97%N 800; repeat 97%N 800; repeat 97%N 201].
Proof. vm_compute. reflexivity. Qed.

Example variantes_ejemplo :
  variantes (u "self-attention")
  ≡ₚ [u "self-attention"; u "SELF-ATTENTION"; u "Self-attention";
      u "Self-Attention"].
Proof.
  apply (bool_decide_unpack _). vm_compute. exact I.
Qed.

Example re_search_palabra_ejemplos :
  re_search_palabra (u "key") (u "the key, value") = true
  /\ re_search_palabra (u "key") (u "monkeys") = false.
Proof. vm_compute. auto. Qed.

(** The question [attention] on the second store: the scan lifts chunk 1
    over chunk 0, which the semantic search ranked first, and the expansion
    adds chunk 2. *)
Example responder_ejemplo :
  match responder semantica_ejemplo contiene_corpus 3 get_corpus
          get_ids_corpus (u "attention") with
  | Returns (Respuesta fragmentos_finales) =>
      map id_de_contexto fragmentos_finales
      = [u "spec.pdf_pag0_chunk1"; u "spec.pdf_pag0_chunk0";
         u "spec.pdf_pag0_chunk2"]
  | _ => False
  end.
Proof. vm_compute. reflexivity. Qed.

(** * Further properties of the code *)

(** ** Stripping and slicing *)

Lemma lstrip_length (p : N -> bool) (s : str) :
  (length (lstrip p s) <= length s)%nat.
Proof.
  induction s as [|c s IH]; simpl; [lia|]. destruct (p c); simpl; lia.
Qed.

Lemma strip_by_length (p : N -> bool) (s : str) :
  (length (strip_by p s) <= length s)%nat.
Proof.
  unfold strip_by. rewrite length_reverse.
  etransitivity; [apply lstrip_length|]. rewrite length_reverse.
  apply lstrip_length.
Qed.

Lemma lstrip_sufijo (p : N -> bool) (s : str) :
  exists pre, s = pre ++ lstrip p s.
Proof.
  induction s as [|c s [pre IH]]; simpl; [now exists []|].
  destruct (p c); [|now exists []].
  exists (c :: pre). simpl. now f_equal.
Qed.

Lemma lstrip_cabeza (p : N -> bool) (s : str) (c : N) (t : str) :
  lstrip p s = c :: t -> p c = false.
Proof.
  induction s as [|c' s IH]; simpl; [discriminate|].
  destruct (p c') eqn:E; [exact IH|]. now intros [= <- _].
Qed.

Lemma lstrip_fijo (p : N -> bool) (c : N) (t : str) :
  p c = false -> lstrip p (c :: t) = c :: t.
Proof. intros H. simpl. now rewrite H. Qed.

(** Stripping twice is stripping once. *)
Lemma strip_by_idempotente (p : N -> bool) (s : str) :
  strip_by p (strip_by p s) = strip_by p s.
Proof.
  unfold strip_by.
  destruct (lstrip p (reverse (lstrip p s))) as [|c b] eqn:Eb; [reflexivity|].
  pose proof (lstrip_cabeza _ _ _ _ Eb) as Hc.
  destruct (lstrip_sufijo p (reverse (lstrip p s))) as [pre Hpre].
  rewrite Eb in Hpre.
  assert (Ha : lstrip p s = reverse (c :: b) ++ reverse pre).
  { rewrite <- reverse_app, <- Hpre. now rewrite reverse_involutive. }
  destruct (reverse (c :: b)) as [|a r] eqn:Er.
  { apply (f_equal length) in Er. rewrite length_reverse in Er. discriminate. }
  assert (Hpa : p a = false).
  { simpl in Ha. exact (lstrip_cabeza _ _ _ _ Ha). }
  rewrite (lstrip_fijo p a r Hpa).
  rewrite <- Er, reverse_involutive.
  now rewrite (lstrip_fijo p c b Hc).
Qed.

Lemma len_strip_le (s : str) : len (strip s) <= len s.
Proof. unfold len, strip. pose proof (strip_by_length isspace s). lia. Qed.

Lemma len_slice_le {A} (s : list A) (i j : Z) : len (slice s i j) <= len s.
Proof.
  unfold len, slice. rewrite length_take, length_drop. lia.
Qed.

Lemma len_slice_ventana {A} (s : list A) (i n : Z) :
  0 <= i -> 0 <= n -> len (slice s i (i + n)) <= n.
Proof.
  intros Hi Hn. unfold len, slice, clamp_index.
  rewrite length_take, length_drop.
  destruct (Z.ltb_spec i 0); [lia|]. destruct (Z.ltb_spec (i + n) 0); lia.
Qed.

Lemma slice_fin_recortado {A} (s : list A) (i n : Z) :
  0 <= i -> 0 <= n ->
  slice s i (Z.min (i + n) (len s)) = slice s i (i + n).
Proof.
  intros Hi Hn. unfold slice, clamp_index.
  pose proof (len_nonneg s).
  destruct (Z.ltb_spec (Z.min (i + n) (len s)) 0); [lia|].
  destruct (Z.ltb_spec (i + n) 0); [lia|].
  now rewrite Z.min_l by lia.
Qed.

(** ** More on the chunker *)

Section Ventanas.

Variable texto : str.
Variables chunk_size overlap : Z.
Hypothesis chunk_size_nonneg : 0 <= chunk_size.
Hypothesis overlap_le : overlap <= chunk_size.

(** What holds of a kept chunk: it is the trimmed window that starts at a
    multiple of the step, it is trimmed, and its length lies between the
    minimum and the window size. *)
Let bien_formado (c : str) : Prop :=
  strip c = c
  /\ MIN_CHUNK_LENGTH <= len c <= chunk_size
  /\ exists k, 0 <= k
       /\ c = strip (slice texto (k * (chunk_size - overlap))
                           (k * (chunk_size - overlap) + chunk_size)).

Lemma bucle_bien_formado (fuel : nat) :
  forall inicio chunks r,
    (exists k, 0 <= k /\ inicio = k * (chunk_size - overlap)) ->
    Forall bien_formado chunks ->
    bucle fuel texto chunk_size overlap inicio chunks = Returns r ->
    Forall bien_formado r.
Proof.
  induction fuel as [|fuel IH]; intros inicio chunks r (k & Hk & Ek) Hall;
    simpl; unfold iteracion;
    (destruct (Z.ltb_spec inicio (len texto)) as [Hlt|Hge];
     [|now intros [= <-]]);
    assert (Hi : 0 <= inicio) by (subst inicio; nia);
    rewrite slice_fin_recortado by assumption;
    set (pieza := strip (slice texto inicio (inicio + chunk_size)));
    assert (Hall' : Forall bien_formado
              (if MIN_CHUNK_LENGTH <=? len pieza then chunks ++ [pieza]
               else chunks))
      by (destruct (Z.leb_spec MIN_CHUNK_LENGTH (len pieza)) as [Hmin|];
          [|exact Hall];
          apply Forall_app; split; [exact Hall|];
          apply Forall_singleton; unfold bien_formado; split;
          [apply strip_by_idempotente|]; split;
          [split; [exact Hmin|];
           etransitivity; [apply len_strip_le|now apply len_slice_ventana]
          |exists k; split; [exact Hk|]; unfold pieza; now subst inicio]);
    destruct (Z.leb_spec (len texto) (Z.min (inicio + chunk_size) (len texto))).
  - now intros [= <-].
  - discriminate.
  - now intros [= <-].
  - apply IH; [|exact Hall'].
    exists (k + 1). split; [lia|]. subst inicio. lia.
Qed.

End Ventanas.

(** X1. With [0 <= chunk_size] and [overlap <= chunk_size], every chunk
    that [dividir_en_chunks] returns is trimmed, has between
    [MIN_CHUNK_LENGTH] and [chunk_size] characters, and is the trimmed
    window [texto[k * step : k * step + chunk_size]] for some [k >= 0], where
    [step = chunk_size - overlap]. *)
Theorem dividir_en_chunks_bien_formados (texto : str) (chunk_size overlap : Z)
    (fuel : nat) (chunks : list str) :
  0 <= chunk_size -> overlap <= chunk_size ->
  dividir_en_chunks fuel texto chunk_size overlap = Returns chunks ->
  Forall (fun c =>
            strip c = c
            /\ MIN_CHUNK_LENGTH <= len c <= chunk_size
            /\ exists k, 0 <= k
                 /\ c = strip (slice texto (k * (chunk_size - overlap))
                                     (k * (chunk_size - overlap) + chunk_size)))
         chunks.
Proof.
  intros Hcs Hov Hrun.
  apply (bucle_bien_formado texto chunk_size overlap Hcs Hov fuel 0 [] chunks);
    [exists 0; lia|constructor|exact Hrun].
Qed.

Lemma dividir_en_chunks_bien_formados_witness :
  Forall (fun c => strip c = c /\ MIN_CHUNK_LENGTH <= len c <= 120
                   /\ exists k, 0 <= k
                        /\ c = strip (slice (repeat 97%N 250) (k * (120 - 20))
                                            (k * (120 - 20) + 120)))
         [repeat 97%N 120; repeat 97%N 120].
Proof.
  apply (dividir_en_chunks_bien_formados (repeat 97%N 250) 120 20 3);
    [lia|lia|vm_compute; reflexivity].
Defined.

Lemma bucle_texto_corto (texto : str) (chunk_size overlap : Z) (fuel : nat) :
  len texto < MIN_CHUNK_LENGTH ->
  forall inicio chunks r,
    bucle fuel texto chunk_size overlap inicio chunks = Returns r -> r = chunks.
Proof.
  intros Hcorto.
  induction fuel as [|fuel IH]; intros inicio chunks r; simpl; unfold iteracion;
    (destruct (inicio <? len texto); [|now intros [= <-]]);
    set (fin := Z.min (inicio + chunk_size) (len texto));
    pose proof (len_strip_le (slice texto inicio fin));
    pose proof (len_slice_le texto inicio fin);
    (destruct (Z.leb_spec MIN_CHUNK_LENGTH (len (strip (slice texto inicio fin))));
     [lia|]);
    destruct (len texto <=? fin); try discriminate; try (now intros [= <-]).
  apply IH.
Qed.

(** X2. A text of fewer than [MIN_CHUNK_LENGTH] characters yields no chunk,
    whatever the sizes: when [dividir_en_chunks] returns, it returns the
    empty list. *)
Theorem dividir_en_chunks_texto_corto (texto : str) (chunk_size overlap : Z)
    (fuel : nat) (chunks : list str) :
  len texto < MIN_CHUNK_LENGTH ->
  dividir_en_chunks fuel texto chunk_size overlap = Returns chunks ->
  chunks = [].
Proof.
  intros Hcorto Hrun.
  exact (bucle_texto_corto texto chunk_size overlap fuel Hcorto 0 [] chunks Hrun).
Qed.

Lemma dividir_en_chunks_texto_corto_witness :
  exists chunks,
    dividir_en_chunks 0 (repeat 97%N 99) CHUNK_SIZE CHUNK_OVERLAP = Returns chunks
    /\ chunks = [].
Proof.
  exists []. split; [vm_compute; reflexivity|].
  apply (dividir_en_chunks_texto_corto (repeat 97%N 99) CHUNK_SIZE CHUNK_OVERLAP 0 []);
    vm_compute; reflexivity.
Defined.

(** ** Uniqueness of fragment identifiers *)

Lemma valor_decimal_snoc (ds : str) (d : N) :
  valor_decimal (ds ++ [d]) = 10 * valor_decimal ds + (Z.of_N d - 48).
Proof. unfold valor_decimal. now rewrite fold_left_app. Qed.

Lemma str_pos_aux_digitos (fuel : nat) :
  forall n acc,
    0 <= n -> (1 <= fuel)%nat -> n <= Z.of_nat fuel ->
    exists ds,
      str_pos_aux fuel n acc = ds ++ acc
      /\ ds <> [] /\ Forall es_digito ds /\ valor_decimal ds = n.
Proof.
  induction fuel as [|fuel IH]; intros n acc Hn Hf Hle; [lia|]. simpl.
  destruct (Z.ltb_spec n 10) as [Hlt|Hge].
  - exists [digit_char n]. repeat split.
    + discriminate.
    + apply Forall_singleton. unfold es_digito, digit_char. lia.
    + unfold valor_decimal, digit_char. simpl. lia.
  - pose proof (Z.div_mod n 10 ltac:(lia)) as Hdm.
    pose proof (Z.mod_pos_bound n 10 ltac:(lia)) as Hmod.
    destruct (IH (n / 10) (digit_char (n mod 10) :: acc))
      as (ds & Hds & Hne & Hdig & Hval); [lia|lia|lia|].
    exists (ds ++ [digit_char (n mod 10)]). repeat split.
    + rewrite Hds. now rewrite <- app_assoc.
    + destruct ds; discriminate.
    + apply Forall_app. split; [exact Hdig|].
      apply Forall_singleton. unfold es_digito, digit_char. lia.
    + rewrite valor_decimal_snoc, Hval. unfold digit_char. lia.
Qed.

(** What [str_int] writes: an optional minus sign, then the digits. *)
Lemma str_int_forma (n : Z) :
  exists ds,
    ds <> [] /\ Forall es_digito ds /\ valor_decimal ds = Z.abs n
    /\ str_int n = if n <? 0 then 45%N :: ds else ds.
Proof.
  unfold str_int. destruct (Z.ltb_spec n 0) as [Hneg|Hpos].
  - destruct (str_pos_aux_digitos (Z.to_nat (- n)) (- n) [])
      as (ds & Hds & Hne & Hdig & Hval); [lia|lia|lia|].
    exists ds. rewrite app_nil_r in Hds. rewrite Hds. repeat split; try assumption.
    lia.
  - destruct (str_pos_aux_digitos (S (Z.to_nat n)) n [])
      as (ds & Hds & Hne & Hdig & Hval); [lia|lia|lia|].
    exists ds. rewrite app_nil_r in Hds. rewrite Hds. repeat split; try assumption.
    lia.
Qed.

Lemma str_int_inyectiva (a b : Z) : str_int a = str_int b -> a = b.
Proof.
  destruct (str_int_forma a) as (da & Hna & Hda & Hva & Ea).
  destruct (str_int_forma b) as (db & Hnb & Hdb & Hvb & Eb).
  rewrite Ea, Eb. clear Ea Eb.
  destruct (Z.ltb_spec a 0), (Z.ltb_spec b 0); intros E.
  - injection E as ->. lia.
  - subst db. apply Forall_cons in Hdb as [Hd _]. unfold es_digito in Hd. lia.
  - subst da. apply Forall_cons in Hda as [Hd _]. unfold es_digito in Hd. lia.
  - subst db. lia.
Qed.

Lemma str_int_sin_guion_bajo (n : Z) : Forall (fun c => c <> 95%N) (str_int n).
Proof.
  destruct (str_int_forma n) as (ds & _ & Hd & _ & E). rewrite E.
  assert (H : Forall (fun c => c <> 95%N) ds).
  { eapply Forall_impl; [exact Hd|]. unfold es_digito. intros c Hc. lia. }
  destruct (n <? 0); [|exact H]. constructor; [discriminate|exact H].
Qed.

(** Within one page the identifier determines the chunk index. *)
Lemma id_doc_chunk_inyectiva (archivo : str) (i chunk_idx chunk_idx' : Z) :
  id_doc archivo i chunk_idx = id_doc archivo i chunk_idx' ->
  chunk_idx = chunk_idx'.
Proof.
  unfold id_doc. intros E. do 4 apply app_inv_head in E.
  now apply str_int_inyectiva.
Qed.

(** Two strings cut at their first underscore agree piecewise. *)
Lemma corte_guion_bajo (x x' r r' : str) :
  Forall (fun c => c <> 95%N) x -> Forall (fun c => c <> 95%N) x' ->
  x ++ 95%N :: r = x' ++ 95%N :: r' -> x = x' /\ r = r'.
Proof.
  intros Hx. revert x'. induction Hx as [|c x Hc Hx IH]; intros x' Hx' E.
  - destruct Hx' as [|c' x' Hc' Hx']; simpl in E.
    + now injection E as ->.
    + injection E as <- _. congruence.
  - destruct Hx' as [|c' x' Hc' Hx']; simpl in E.
    + injection E as -> _. congruence.
    + injection E as -> E. destruct (IH x' Hx' E) as [-> ->]. auto.
Qed.

Lemma corte_doble (c c' p p' a a' K G : str) :
  Forall (fun x => x <> 95%N) c -> Forall (fun x => x <> 95%N) c' ->
  Forall (fun x => x <> 95%N) p -> Forall (fun x => x <> 95%N) p' ->
  Forall (fun x => x <> 95%N) K -> Forall (fun x => x <> 95%N) G ->
  c ++ K ++ [95%N] ++ p ++ G ++ [95%N] ++ a
  = c' ++ K ++ [95%N] ++ p' ++ G ++ [95%N] ++ a' ->
  c = c' /\ p = p' /\ a = a'.
Proof.
  intros Hc Hc' Hp Hp' HK HG E.
  rewrite (app_assoc c K), (app_assoc c' K) in E.
  apply corte_guion_bajo in E as [E1 E2];
    [|apply Forall_app; auto|apply Forall_app; auto].
  rewrite (app_assoc p G), (app_assoc p' G) in E2.
  apply corte_guion_bajo in E2 as [E2 E3];
    [|apply Forall_app; auto|apply Forall_app; auto].
  apply app_inv_tail in E1. apply app_inv_tail in E2. auto.
Qed.

(** X3. Fragment identifiers are unique: [id_doc] maps different
    (document, page, chunk) triples to different strings. *)
Theorem id_doc_inyectiva (archivo archivo' : str) (i i' chunk_idx chunk_idx' : Z) :
  id_doc archivo i chunk_idx = id_doc archivo' i' chunk_idx' ->
  archivo = archivo' /\ i = i' /\ chunk_idx = chunk_idx'.
Proof.
  unfold id_doc. intros E. apply (f_equal reverse) in E.
  rewrite !reverse_app in E.
  assert (HK : reverse (u "_chunk") = u "knuhc" ++ [95%N])
    by (vm_compute; reflexivity).
  assert (HG : reverse (u "_pag") = u "gap" ++ [95%N])
    by (vm_compute; reflexivity).
  rewrite HK, HG in E. rewrite <- !app_assoc in E.
  apply corte_doble in E as (E1 & E2 & E3);
    try (apply Forall_reverse, str_int_sin_guion_bajo);
    try (vm_compute; repeat constructor; discriminate).
  apply (f_equal reverse) in E1, E2, E3.
  rewrite !reverse_involutive in E1, E2, E3.
  apply str_int_inyectiva in E1, E2. auto.
Qed.

Lemma id_doc_inyectiva_witness :
  u "a_pag1.pdf" = u "a_pag1.pdf" /\ 2 = 2 /\ 13 = 13.
Proof.
  apply id_doc_inyectiva. reflexivity.
Defined.

(** ** The indexer *)






(** ** More on the context expander *)

Lemma length_omap_le {A B} (f : A -> option B) (l : list A) :
  (length (omap f l) <= length l)%nat.
Proof.
  induction l as [|x l IH]; csimpl; [lia|]. destruct (f x); csimpl; lia.
Qed.

(** X6. For any metadata and any number of neighbours,
    [expandir_con_chunks_adyacentes] returns at most [2 * n_vecinos]
    identifiers, never the identifier of the fragment itself, and only
    identifiers of chunks of the same document and page at distance 1 to
    [n_vecinos]: earlier ones are never negative, later ones appear only
    when [total_chunks_in_page] is present and stay below it. *)
Theorem expandir_acotado (cid : str) (metadata : Metadata) (n_vecinos : Z) :
  let c := default 0 (chunk metadata) in
  (length (expandir_con_chunks_adyacentes cid metadata n_vecinos)
   <= 2 * Z.to_nat n_vecinos)%nat
  /\ (id_doc (source metadata) (page metadata) c
      ∉ expandir_con_chunks_adyacentes cid metadata n_vecinos)
  /\ forall x,
       x ∈ expandir_con_chunks_adyacentes cid metadata n_vecinos ->
       exists k,
         x = id_doc (source metadata) (page metadata) k
         /\ ((0 <= k < c /\ c - k <= n_vecinos)
             \/ (c < k /\ k - c <= n_vecinos
                 /\ exists total,
                      total_chunks_in_page metadata = Some total /\ k < total)).
Proof.
  unfold expandir_con_chunks_adyacentes. cbv zeta.
  generalize (default 0 (chunk metadata)). intros c.
  set (anteriores := omap _ (seqZ 1 n_vecinos)).
  set (siguientes := match total_chunks_in_page metadata with
                     | Some total => _ | None => [] end).
  assert (Hrango : forall x,
            x ∈ anteriores ++ siguientes ->
            exists k,
              x = id_doc (source metadata) (page metadata) k
              /\ ((0 <= k < c /\ c - k <= n_vecinos)
                  \/ (c < k /\ k - c <= n_vecinos
                      /\ exists total,
                           total_chunks_in_page metadata = Some total
                           /\ k < total))).
  { intros x Hx. apply elem_of_app in Hx as [Hx|Hx].
    - apply list_elem_of_omap in Hx as (j & Hj & Hx). apply elem_of_seqZ in Hj.
      destruct (Z.leb_spec 0 (c - j)); [|discriminate]. injection Hx as <-.
      exists (c - j). split; [reflexivity|]. left. lia.
    - unfold siguientes in Hx.
      destruct (total_chunks_in_page metadata) as [total|] eqn:Et;
        [|now apply elem_of_nil in Hx].
      apply list_elem_of_omap in Hx as (j & Hj & Hx). apply elem_of_seqZ in Hj.
      destruct (Z.ltb_spec (c + j) total); [|discriminate]. injection Hx as <-.
      exists (c + j). split; [reflexivity|]. right.
      split; [lia|]. split; [lia|]. exists total. split; [reflexivity|lia]. }
  split; [|split; [|exact Hrango]].
  - rewrite length_app.
    pose proof (length_seqZ 1 n_vecinos) as Hs.
    assert (length anteriores <= Z.to_nat n_vecinos)%nat
      by (rewrite <- Hs; apply length_omap_le).
    assert (length siguientes <= Z.to_nat n_vecinos)%nat.
    { unfold siguientes. destruct (total_chunks_in_page metadata);
        [rewrite <- Hs; apply length_omap_le|simpl; lia]. }
    lia.
  - intros Hx. apply Hrango in Hx as (k & Ek & Hk).
    apply id_doc_chunk_inyectiva in Ek. lia.
Qed.

Lemma expandir_acotado_witness :
  u "spec.pdf_pag0_chunk1"
  ∉ expandir_con_chunks_adyacentes (u "spec.pdf_pag0_chunk1")
      {| source := u "spec.pdf"; page := 0; chunk := Some 1;
         total_chunks_in_page := Some 3 |} 2.
Proof.
  destruct (expandir_acotado (u "spec.pdf_pag0_chunk1")
              {| source := u "spec.pdf"; page := 0; chunk := Some 1;
                 total_chunks_in_page := Some 3 |} 2) as (_ & H & _).
  intros Hx. apply H. simpl. revert Hx. vm_compute. tauto.
Defined.

(** ** More on the keyword extractor *)

Lemma extraer_keywords_elem (texto k : str) :
  k ∈ extraer_keywords texto <->
  (k ∈ keywords_filtradas texto ++ map lower (terminos_tecnicos texto))
  \/ exists kw,
       kw ∈ keywords_filtradas texto ++ map lower (terminos_tecnicos texto)
       /\ k ∈ sinonimos kw.
Proof.
  unfold extraer_keywords.
  rewrite elem_of_elements, elem_of_list_to_set, elem_of_app,
    elem_of_flat_map_sinonimos.
  setoid_rewrite elem_of_elements.
  setoid_rewrite elem_of_list_to_set.
  reflexivity.
Qed.

Lemma lista_vacia_sin_elementos {A} (l : list A) : l = [] <-> forall x, x ∉ l.
Proof.
  split.
  - intros -> x. apply not_elem_of_nil.
  - intros H. destruct l as [|x l]; [reflexivity|].
    exfalso. apply (H x). apply elem_of_cons. now left.
Qed.

(** X7. [extraer_keywords] returns no keyword exactly when no token of the
    text passes the length-and-stopword filter and no token has a capital,
    a digit or a hyphen; in particular for an empty or all-blank text. *)
Theorem extraer_keywords_vacio (texto : str) :
  (extraer_keywords texto = [] <->
   forall p, p ∈ split texto ->
             es_candidata p = false /\ es_termino_tecnico p = false)
  /\ (Forall (fun c => isspace c = true) texto -> extraer_keywords texto = []).
Proof.
  assert (Hiff : extraer_keywords texto = [] <->
            forall p, p ∈ split texto ->
                      es_candidata p = false /\ es_termino_tecnico p = false).
  { rewrite lista_vacia_sin_elementos. split.
    - intros H p Hp. split.
      + destruct (es_candidata p) eqn:E; [|reflexivity]. exfalso.
        apply (H (strip_puntuacion p)). apply extraer_keywords_elem. left.
        apply elem_of_app. left. unfold keywords_filtradas.
        apply list_elem_of_In, in_map, filter_In. split; [|exact E].
        now apply list_elem_of_In.
      + destruct (es_termino_tecnico p) eqn:E; [|reflexivity]. exfalso.
        apply (H (lower (strip_puntuacion p))). apply extraer_keywords_elem. left.
        apply elem_of_app. right. unfold terminos_tecnicos.
        apply list_elem_of_In, in_map, in_map, filter_In. split; [|exact E].
        now apply list_elem_of_In.
    - intros H k Hk.
      assert (Hbase : forall kw,
                kw ∉ keywords_filtradas texto ++ map lower (terminos_tecnicos texto)).
      { intros kw Hkw. apply elem_of_app in Hkw as [Hkw|Hkw].
        - unfold keywords_filtradas in Hkw.
          apply list_elem_of_In, in_map_iff in Hkw as (p & _ & Hp).
          apply filter_In in Hp as [Hp E]. apply list_elem_of_In, H in Hp.
          destruct Hp. congruence.
        - unfold terminos_tecnicos in Hkw.
          apply list_elem_of_In, in_map_iff in Hkw as (t & _ & Ht).
          apply in_map_iff in Ht as (p & _ & Hp).
          apply filter_In in Hp as [Hp E]. apply list_elem_of_In, H in Hp.
          destruct Hp. congruence. }
      apply extraer_keywords_elem in Hk as [Hk|(kw & Hkw & _)];
        eapply Hbase; eassumption. }
  split; [exact Hiff|].
  intros Hblanco. apply Hiff. intros p Hp. exfalso.
  assert (Hsplit : split texto = []).
  { unfold split. clear Hiff Hp. induction Hblanco as [|c s Hc _ IH]; simpl;
      [reflexivity|]. rewrite Hc. exact IH. }
  rewrite Hsplit in Hp. now apply elem_of_nil in Hp.
Qed.

Lemma extraer_keywords_vacio_witness : extraer_keywords (u "   ") = [].
Proof.
  apply extraer_keywords_vacio. repeat constructor.
Defined.

(** ** More on the keyword searcher *)

Lemma fold_left_invariante {A B} (P : A -> Prop) (f : A -> B -> A)
    (l : list B) (init : A) :
  P init -> (forall st x, x ∈ l -> P st -> P (f st x)) ->
  P (fold_left f l init).
Proof.
  revert init. induction l as [|x l IH]; intros init H0 Hstep; simpl;
    [exact H0|].
  apply IH.
  - apply Hstep; [apply elem_of_cons; now left|exact H0].
  - intros st y Hy. apply Hstep. apply elem_of_cons. now right.
Qed.

Lemma variantes_length (keyword_base : str) :
  (length (variantes keyword_base) <= 5)%nat.
Proof.
  unfold variantes.
  set (l := [keyword_base; lower keyword_base; upper keyword_base;
             capitalize keyword_base; title keyword_base]).
  change 5%nat with (length l). apply submseteq_length, NoDup_submseteq.
  - apply NoDup_elements.
  - intros x Hx. now apply elem_of_elements, elem_of_list_to_set in Hx.
Qed.

Section Buscador.

Variable consulta_contiene : str -> Z -> outcome (list Hit).
Variable n_results : Z.
Variable primeras : list str.

Let valido (estado : list ResultadoKeyword * list str) : Prop :=
  Forall (resultado_valido consulta_contiene n_results primeras) estado.1
  /\ Forall (consulta_valida primeras) estado.2.

Lemma buscar_variante_valido (keyword_base keyword : str)
    (estado : list ResultadoKeyword * list str) :
  keyword_base ∈ primeras -> keyword ∈ variantes keyword_base ->
  valido estado ->
  valido (buscar_variante consulta_contiene n_results keyword_base estado keyword).
Proof.
  intros Hkb Hkw [Hres Hcons]. destruct estado as [res cons].
  unfold valido, buscar_variante. simpl in *.
  destruct (Z.ltb_spec (len keyword) 3) as [|Hlen]; [now split|].
  assert (Hq : consulta_valida primeras keyword) by (split; [lia|eauto]).
  destruct (consulta_contiene keyword n_results) as [results| |] eqn:E; simpl;
    (split; [|apply Forall_app; split; [exact Hcons|now apply Forall_singleton]]);
    try exact Hres.
  apply Forall_app. split; [exact Hres|].
  apply Forall_forall. intros r Hr.
  apply list_elem_of_In, in_map_iff in Hr as ([[doc dist] meta] & <- & Hhit).
  unfold resultado_valido. simpl. split; [exact Hkb|]. split; [reflexivity|].
  exists keyword, results. repeat split; try assumption; try lia.
  now apply list_elem_of_In.
Qed.

Lemma buscar_keywords_valido :
  valido
    (fold_left
       (fun estado keyword_base =>
          fold_left (buscar_variante consulta_contiene n_results keyword_base)
                    (variantes keyword_base) estado)
       primeras ([], [])).
Proof.
  apply (fold_left_invariante valido); [split; constructor|].
  intros st kb Hkb Hst.
  apply (fold_left_invariante valido); [exact Hst|].
  intros st' kw Hkw Hst'. now apply buscar_variante_valido.
Qed.

Lemma buscar_variante_consultas (keyword_base keyword : str)
    (estado : list ResultadoKeyword * list str) :
  (length (buscar_variante consulta_contiene n_results keyword_base estado
             keyword).2
   <= S (length estado.2))%nat.
Proof.
  destruct estado as [res cons]. unfold buscar_variante.
  destruct (len keyword <? 3); simpl; [lia|].
  destruct (consulta_contiene keyword n_results); simpl;
    rewrite length_app; simpl; lia.
Qed.

Lemma buscar_keyword_consultas (keyword_base : str) (vs : list str) :
  forall estado,
    (length (fold_left (buscar_variante consulta_contiene n_results keyword_base)
               vs estado).2
     <= length estado.2 + length vs)%nat.
Proof.
  induction vs as [|v vs IH]; intros estado; simpl; [lia|].
  etransitivity; [apply IH|].
  pose proof (buscar_variante_consultas keyword_base v estado). lia.
Qed.

Lemma buscar_keywords_consultas (kws : list str) :
  forall estado,
    (length (fold_left
               (fun estado keyword_base =>
                  fold_left (buscar_variante consulta_contiene n_results
                               keyword_base)
                            (variantes keyword_base) estado)
               kws estado).2
     <= length estado.2 + 5 * length kws)%nat.
Proof.
  induction kws as [|kb kws IH]; intros estado; simpl; [lia|].
  etransitivity; [apply IH|].
  pose proof (buscar_keyword_consultas kb (variantes kb) estado).
  pose proof (variantes_length kb). lia.
Qed.

End Buscador.

(** X8. [busqueda_por_keywords] sends at most 60 queries to the store, and
    each of them is a case variant, at least three characters long, of one
    of the first twelve extracted keywords. *)
Theorem busqueda_por_keywords_consultas
    (consulta_contiene : str -> Z -> outcome (list Hit))
    (pregunta : str) (n_results : Z) :
  (length (busqueda_por_keywords consulta_contiene pregunta n_results).2 <= 60)%nat
  /\ Forall (fun q => 3 <= len q
                      /\ exists kb,
                           kb ∈ slice (extraer_keywords pregunta) 0 12
                           /\ q ∈ variantes kb)
            (busqueda_por_keywords consulta_contiene pregunta n_results).2.
Proof.
  unfold busqueda_por_keywords.
  pose proof (buscar_keywords_valido consulta_contiene n_results
                (slice (extraer_keywords pregunta) 0 12)) as [_ Hv].
  pose proof (buscar_keywords_consultas consulta_contiene n_results
                (slice (extraer_keywords pregunta) 0 12) ([], [])) as Hn.
  pose proof (len_slice_ventana (extraer_keywords pregunta) 0 12
                ltac:(lia) ltac:(lia)) as Hl.
  change (0 + 12) with 12 in Hl. unfold len in Hl. simpl in Hn.
  destruct (extraer_keywords pregunta) as [|k0 ks];
    [split; [simpl; lia|constructor]|].
  split; [lia|exact Hv].
Qed.

(** X9. Every result of [busqueda_por_keywords] is tagged with one of the
    first twelve keywords, carries the identifier computed from its own
    metadata, and was returned by the store for a case variant of its
    keyword. *)
Theorem busqueda_por_keywords_resultados
    (consulta_contiene : str -> Z -> outcome (list Hit))
    (pregunta : str) (n_results : Z) :
  Forall (fun r =>
            keyword_match r ∈ slice (extraer_keywords pregunta) 0 12
            /\ rk_id r = chunk_id_keyword (rk_metadata r)
            /\ exists q results,
                 q ∈ variantes (keyword_match r) /\ 3 <= len q
                 /\ consulta_contiene q n_results = Returns results
                 /\ (rk_doc r, rk_distancia r, rk_metadata r) ∈ results)
         (busqueda_por_keywords consulta_contiene pregunta n_results).1.
Proof.
  unfold busqueda_por_keywords.
  pose proof (buscar_keywords_valido consulta_contiene n_results
                (slice (extraer_keywords pregunta) 0 12)) as [Hv _].
  destruct (extraer_keywords pregunta) as [|k0 ks]; [constructor|exact Hv].
Qed.

(** X10. Store failures are swallowed: when every query either raises or
    returns nothing, [busqueda_por_keywords] returns the empty list. *)
Theorem busqueda_por_keywords_sin_respuesta
    (consulta_contiene : str -> Z -> outcome (list Hit))
    (pregunta : str) (n_results : Z) :
  (forall q results,
      consulta_contiene q n_results = Returns results -> results = []) ->
  (busqueda_por_keywords consulta_contiene pregunta n_results).1 = [].
Proof.
  intros Hvacio. unfold busqueda_por_keywords.
  destruct (extraer_keywords pregunta) as [|k0 ks]; [reflexivity|].
  apply (fold_left_invariante (fun st => st.1 = [])); [reflexivity|].
  intros st kb _ Hst.
  apply (fold_left_invariante (fun st => st.1 = [])); [exact Hst|].
  intros [res cons] kw _ Hres. simpl in Hres. subst res.
  unfold buscar_variante. destruct (len kw <? 3); [reflexivity|].
  destruct (consulta_contiene kw n_results) as [results| |] eqn:E;
    [|reflexivity|reflexivity].
  apply Hvacio in E. now subst results.
Qed.

Lemma busqueda_por_keywords_sin_respuesta_witness :
  (busqueda_por_keywords (fun _ _ => Raises (u "store"))
     (u "attention heads") 20).1 = [].
Proof.
  apply busqueda_por_keywords_sin_respuesta. intros q results H. discriminate.
Defined.

(** ** Stable descending sort, in general *)

Section OrdenGeneral.

Context {A : Type} (mayor : A -> A -> bool) (precede : A -> A -> Prop).
Hypothesis mayor_precede : forall y x, mayor y x = true -> precede y x.
Hypothesis no_mayor_precede : forall y x, mayor y x = false -> precede x y.
Hypothesis precede_trans : forall a b c, precede a b -> precede b c -> precede a c.

Lemma insertar_ordenada_gen (x : A) (l : list A) :
  StronglySorted precede l -> StronglySorted precede (insertar mayor x l).
Proof.
  induction 1 as [|z l Hl IH Hz]; simpl.
  - repeat constructor.
  - destruct (mayor z x) eqn:E.
    + constructor; [exact IH|].
      apply Forall_forall. intros y Hy. apply insertar_elem in Hy as [->|Hy].
      * now apply mayor_precede.
      * rewrite Forall_forall in Hz. now apply Hz.
    + constructor; [now constructor|].
      constructor; [now apply no_mayor_precede|].
      eapply Forall_impl; [exact Hz|]. intros y Hy.
      eapply precede_trans; [|exact Hy]. now apply no_mayor_precede.
Qed.

Lemma sorted_desc_ordenada_gen (l : list A) :
  StronglySorted precede (sorted_desc mayor l).
Proof.
  induction l as [|x l IH]; simpl; [constructor|now apply insertar_ordenada_gen].
Qed.

End OrdenGeneral.

Lemma insertar_perm {A} (mayor : A -> A -> bool) (x : A) (l : list A) :
  insertar mayor x l ≡ₚ x :: l.
Proof.
  induction l as [|y l IH]; simpl; [reflexivity|].
  destruct (mayor y x); [|reflexivity].
  rewrite IH. apply Permutation_swap.
Qed.

Lemma sorted_desc_perm {A} (mayor : A -> A -> bool) (l : list A) :
  sorted_desc mayor l ≡ₚ l.
Proof.
  induction l as [|x l IH]; simpl; [reflexivity|].
  now rewrite insertar_perm, IH.
Qed.

Lemma slice_ordenada {A} (R : A -> A -> Prop) (l : list A) (i j : Z) :
  StronglySorted R l -> StronglySorted R (slice l i j).
Proof.
  intros H. unfold slice.
  set (a := Z.to_nat (clamp_index (len l) i)).
  set (n := Z.to_nat (clamp_index (len l) j - clamp_index (len l) i)).
  rewrite <- (take_drop a l) in H. apply StronglySorted_app_1_r in H.
  rewrite <- (take_drop n (drop a l)) in H.
  now apply StronglySorted_app_1_l in H.
Qed.

(** ** More on the exhaustive scanner *)

Lemma re_search_palabra_infijo (termino s : str) :
  re_search_palabra termino s = true -> es_infijo termino s.
Proof.
  unfold re_search_palabra. intros H.
  apply existsb_exists in H as (i & _ & H).
  apply andb_true_iff in H as [H _]. apply andb_true_iff in H as [_ H].
  apply bool_decide_eq_true in H.
  exists (take i s), (drop (length termino) (drop i s)).
  rewrite <- H at 1. now rewrite take_drop, take_drop.
Qed.

Section Escaner.

Variable coleccion_count : Z.
Variable coleccion_get : Z -> Z -> outcome (list (str * Metadata * str)).
Variable terminos_criticos : list str.
Variable max_results : Z.

Let escaneados : list ResultadoExhaustivo :=
  flat_map (fun offset =>
              match coleccion_get 100 offset with
              | Returns batch => escanear_lote terminos_criticos batch
              | _ => []
              end) (offsets coleccion_count 100).

Lemma escanear_lote_elem (batch : list (str * Metadata * str))
    (r : ResultadoExhaustivo) :
  r ∈ escanear_lote terminos_criticos batch ->
  (re_doc r, re_metadata r, re_id r) ∈ batch
  /\ re_matches r
     = List.filter (fun termino => re_search_palabra (lower termino)
                                                     (lower (re_doc r)))
                   terminos_criticos
  /\ re_matches r <> []
  /\ num_matches r = len (re_matches r).
Proof.
  unfold escanear_lote. intros H.
  apply list_elem_of_omap in H as ([[doc meta] doc_id] & Hin & H).
  destruct (List.filter _ terminos_criticos) as [|m ms] eqn:E; [discriminate|].
  injection H as <-. simpl. rewrite E. repeat split; [exact Hin|discriminate].
Qed.

(** X11. The exhaustive scan returns at most [max_results] results, in
    descending order of match count. Each result is a document that the
    store returned in one of the batches, lists exactly the critical terms
    that occur in it as whole words regardless of case (at least one, each
    contained in the lowercased text), and counts them. *)
Theorem busqueda_exhaustiva_texto_resultados :
  (0 <= max_results ->
   len (busqueda_exhaustiva_texto coleccion_count coleccion_get
          terminos_criticos max_results) <= max_results)
  /\ StronglySorted (fun a b => num_matches b <= num_matches a)
       (busqueda_exhaustiva_texto coleccion_count coleccion_get
          terminos_criticos max_results)
  /\ Forall (fun r =>
               (exists offset batch,
                   offset ∈ offsets coleccion_count 100
                   /\ coleccion_get 100 offset = Returns batch
                   /\ (re_doc r, re_metadata r, re_id r) ∈ batch)
               /\ re_matches r
                  = List.filter
                      (fun termino => re_search_palabra (lower termino)
                                                        (lower (re_doc r)))
                      terminos_criticos
               /\ (forall t, t ∈ re_matches r ->
                      t ∈ terminos_criticos
                      /\ es_infijo (lower t) (lower (re_doc r)))
               /\ 1 <= num_matches r
               /\ num_matches r = len (re_matches r))
            (busqueda_exhaustiva_texto coleccion_count coleccion_get
               terminos_criticos max_results).
Proof.
  unfold busqueda_exhaustiva_texto. fold escaneados. split; [|split].
  - intros Hmax. now apply (len_slice_ventana _ 0 max_results).
  - apply slice_ordenada.
    apply sorted_desc_ordenada_gen.
    + intros y x H. apply Z.ltb_lt in H. lia.
    + intros y x H. apply Z.ltb_ge in H. lia.
    + intros a b c H1 H2. lia.
  - apply Forall_forall. intros r Hr.
    apply slice_elem, sorted_desc_elem in Hr. unfold escaneados in Hr.
    apply list_elem_of_In, in_flat_map in Hr as (offset & Hoff & Hr).
    destruct (coleccion_get 100 offset) as [batch| |] eqn:E; try contradiction.
    apply list_elem_of_In, escanear_lote_elem in Hr as (Hin & Hm & Hne & Hn).
    split; [exists offset, batch; split; [now apply list_elem_of_In|now split]|].
    split; [exact Hm|]. split.
    + intros t Ht. rewrite Hm in Ht.
      apply list_elem_of_In, filter_In in Ht as [Ht Hs].
      split; [now apply list_elem_of_In|now apply re_search_palabra_infijo].
    + split; [|exact Hn]. rewrite Hn.
      destruct (re_matches r); [congruence|]. unfold len. simpl. lia.
Qed.


End Escaner.

Lemma busqueda_exhaustiva_texto_resultados_witness :
  len (busqueda_exhaustiva_texto 3 get_corpus [u "attention"; u "query"] 20) <= 20.
Proof.
  now apply (busqueda_exhaustiva_texto_resultados 3 get_corpus
               [u "attention"; u "query"] 20).
Defined.


(** ** Invariants of the fragment map *)

Lemma dict_get_None {V} (k : str) (d : list (str * V)) :
  dict_get k d = None <-> k ∉ map fst d.
Proof.
  induction d as [|[k0 v] d IH]; simpl.
  - split; [intros _; apply not_elem_of_nil|reflexivity].
  - rewrite not_elem_of_cons. case_bool_decide as Hk.
    + split; [discriminate|]. intros [Hne _]. congruence.
    + rewrite IH. split; [intros H; split; [congruence|exact H]|tauto].
Qed.

Lemma dict_update_keys {V} (k : str) (g : V -> V) (d : list (str * V)) :
  map fst (dict_update k g d) = map fst d.
Proof.
  induction d as [|[k0 v] d IH]; simpl; [reflexivity|].
  destruct (bool_decide (k0 = k)); simpl; [reflexivity|now rewrite IH].
Qed.

Lemma dict_update_Forall {V} (P : str * V -> Prop) (k : str) (g : V -> V)
    (d : list (str * V)) :
  (forall k0 v, P (k0, v) -> P (k0, g v)) ->
  Forall P d -> Forall P (dict_update k g d).
Proof.
  intros Hg. induction 1 as [|[k0 v] d Hv Hd IH]; simpl; [constructor|].
  destruct (bool_decide (k0 = k)); constructor; auto.
Qed.

Lemma mapa_valido_update (k : str) (g : Fragmento -> Fragmento)
    (d : list (str * Fragmento)) :
  (forall k0 v, entrada_valida (k0, v) -> entrada_valida (k0, g v)) ->
  mapa_valido d -> mapa_valido (dict_update k g d).
Proof.
  intros Hg [Hnd Hall]. split.
  - now rewrite dict_update_keys.
  - now apply dict_update_Forall.
Qed.

Lemma mapa_valido_add (k : str) (v : Fragmento) (d : list (str * Fragmento)) :
  dict_contains k d = false -> entrada_valida (k, v) ->
  mapa_valido d -> mapa_valido (dict_add k v d).
Proof.
  unfold dict_contains. intros Hk Hv [Hnd Hall].
  destruct (dict_get k d) eqn:E; [discriminate|].
  apply dict_get_None in E. unfold dict_add. split.
  - rewrite map_app. simpl. apply NoDup_app. split; [exact Hnd|].
    split; [|apply NoDup_singleton].
    intros x Hx Hx'. apply list_elem_of_singleton in Hx'. now subst x.
  - apply Forall_app. split; [exact Hall|now apply Forall_singleton].
Qed.

Lemma entrada_valida_sumar_semantic (x : Q) (q : Z) (k0 : str) (v : Fragmento) :
  (0 <= x)%Q -> entrada_valida (k0, v) ->
  entrada_valida (k0, sumar_semantic x q v).
Proof.
  intros Hx (Hid & Hs & Hk). unfold entrada_valida. simpl.
  repeat split; try assumption.
  rewrite <- (Qplus_0_r 0). now apply Qplus_le_compat.
Qed.

Lemma entrada_valida_sumar_keyword (x : Q) (ms : list str) (k0 : str)
    (v : Fragmento) :
  (0 <= x)%Q -> entrada_valida (k0, v) ->
  entrada_valida (k0, sumar_keyword x ms v).
Proof.
  intros Hx (Hid & Hs & Hk). unfold entrada_valida. simpl.
  repeat split; try assumption.
  rewrite <- (Qplus_0_r 0). now apply Qplus_le_compat.
Qed.

Lemma enumerate_elem {A} (s idx : Z) (x : A) (l : list A) :
  (idx, x) ∈ enumerate s l -> s <= idx.
Proof.
  revert s. induction l as [|y l IH]; intros s H.
  - now apply elem_of_nil in H.
  - rewrite enumerate_cons in H. apply elem_of_cons in H as [[= -> _]|H]; [lia|].
    apply IH in H. lia.
Qed.

Lemma mapa_valido_acumular (q_idx : Z) (d : list (str * Fragmento))
    (idx : Z) (hit : Hit) :
  0 <= idx -> mapa_valido d -> mapa_valido (acumular_semantico q_idx d (idx, hit)).
Proof.
  intros Hidx Hd. destruct hit as [[doc dist] meta]. unfold acumular_semantico.
  apply mapa_valido_update.
  - intros k0 v. apply entrada_valida_sumar_semantic.
    now apply contribucion_rrf_nonneg.
  - destruct (dict_contains _ d) eqn:E; [exact Hd|].
    apply mapa_valido_add; [exact E| |exact Hd].
    unfold entrada_valida. simpl. repeat split; discriminate.
Qed.

Lemma mapa_valido_fusionar_keyword (d : list (str * Fragmento)) (idx : Z)
    (result : ResultadoKeyword) :
  0 <= idx -> mapa_valido d -> mapa_valido (fusionar_keyword d (idx, result)).
Proof.
  intros Hidx Hd. unfold fusionar_keyword.
  pose proof (contribucion_rrf_nonneg idx Hidx) as Hc. unfold contribucion_rrf in Hc.
  destruct (dict_contains _ d) eqn:E.
  - apply mapa_valido_update; [|exact Hd].
    intros k0 v. now apply entrada_valida_sumar_keyword.
  - apply mapa_valido_add; [exact E| |exact Hd].
    unfold entrada_valida. simpl. repeat split; [discriminate|exact Hc].
Qed.

Lemma mapa_valido_fusionar_exhaustivo (d : list (str * Fragmento))
    (result : ResultadoExhaustivo) :
  0 <= num_matches result ->
  mapa_valido d -> mapa_valido (fusionar_exhaustivo d result).
Proof.
  intros Hn Hd. unfold fusionar_exhaustivo.
  assert (Hc : (0 <= (5 # 10) * inject_Z (num_matches result))%Q).
  { apply Qmult_le_0_compat; [discriminate|]. unfold Qle. simpl. lia. }
  destruct (dict_contains _ d) eqn:E.
  - apply mapa_valido_update; [|exact Hd].
    intros k0 v. now apply entrada_valida_sumar_keyword.
  - apply mapa_valido_add; [exact E| |exact Hd].
    unfold entrada_valida. simpl. repeat split; [discriminate|exact Hc].
Qed.

Lemma mapa_valido_calcular (d : list (str * Fragmento)) :
  mapa_valido d -> mapa_valido (calcular_scores d).
Proof.
  intros [Hnd Hall]. unfold calcular_scores. split.
  - rewrite map_map. simpl. exact Hnd.
  - apply Forall_forall. intros kv Hkv.
    apply list_elem_of_In, in_map_iff in Hkv as ([k v] & <- & Hin).
    rewrite Forall_forall in Hall. apply list_elem_of_In, Hall in Hin.
    exact Hin.
Qed.

Lemma mapa_valido_semantica (consulta_semantica : str -> outcome (list Hit))
    (queries : list (Z * str)) :
  forall d all,
    mapa_valido d ->
    busqueda_semantica consulta_semantica queries d = Returns all ->
    mapa_valido all.
Proof.
  induction queries as [|[q_idx query] queries IH]; intros d all Hd; simpl.
  - now intros [= <-].
  - destruct (consulta_semantica query) as [results| |]; cbn [mbind outcome_bind];
      [|discriminate|discriminate].
    apply IH. apply (fold_left_invariante mapa_valido); [exact Hd|].
    intros st [idx hit] Hin Hst. apply enumerate_elem in Hin.
    apply mapa_valido_acumular; [lia|exact Hst].
Qed.

(** ** More on the hybrid search *)

Section Hibrida.

Variable consulta_semantica : str -> outcome (list Hit).
Variable consulta_contiene : str -> Z -> outcome (list Hit).
Variable coleccion_count : Z.
Variable coleccion_get : Z -> Z -> outcome (list (str * Metadata * str)).

(** The hybrid search ranks a valid fragment map after a scoring pass. *)
Lemma realizar_busqueda_hibrida_forma (pregunta : str)
    (r : list Fragmento * Q) :
  realizar_busqueda_hibrida consulta_semantica consulta_contiene
    coleccion_count coleccion_get pregunta = Returns r ->
  exists d, mapa_valido d /\ r = rankear (calcular_scores d).
Proof.
  unfold realizar_busqueda_hibrida.
  destruct (busqueda_semantica _ _ _) as [all| |] eqn:Es;
    cbn [mbind outcome_bind]; [|discriminate|discriminate].
  apply mapa_valido_semantica in Es; [|split; constructor].
  set (results_keyword := if USAR_BUSQUEDA_HIBRIDA then _ else _).
  assert (Hk : mapa_valido (fusion_keywords all results_keyword)).
  { unfold fusion_keywords.
    apply (fold_left_invariante mapa_valido); [exact Es|].
    intros st [idx hit] Hin Hst. apply enumerate_elem in Hin.
    apply mapa_valido_fusionar_keyword; [lia|exact Hst]. }
  destruct (List.filter _ (extraer_keywords pregunta)) as [|t ts].
  - intros [= <-]. eexists. split; [exact Hk|reflexivity].
  - intros [= <-]. eexists. split; [|reflexivity].
    unfold fusion_exhaustiva.
    apply (fold_left_invariante mapa_valido);
      [now apply mapa_valido_calcular|].
    intros st hit Hin Hst.
    apply busqueda_exhaustiva_texto_num_matches in Hin as [_ Hn].
    apply mapa_valido_fusionar_exhaustivo; [lia|exact Hst].
Qed.

(** X13. The list returned by [realizar_busqueda_hibrida] is in descending
    order of final score, and the score returned with it is that of the
    first fragment, or 0 for an empty list. *)
Theorem realizar_busqueda_hibrida_ordenada (pregunta : str)
    (fragmentos_ranked : list Fragmento) (mejor_score : Q) :
  realizar_busqueda_hibrida consulta_semantica consulta_contiene
    coleccion_count coleccion_get pregunta
  = Returns (fragmentos_ranked, mejor_score) ->
  StronglySorted (fun a b => (leer_score_final b <= leer_score_final a)%Q)
                 fragmentos_ranked
  /\ mejor_score = match fragmentos_ranked with
                   | f :: _ => leer_score_final f
                   | [] => 0%Q
                   end.
Proof.
  intros H. apply realizar_busqueda_hibrida_forma in H as (d & _ & H).
  unfold rankear in H. injection H as -> ->. split; [|reflexivity].
  apply sorted_desc_ordenada_gen.
  - intros y x H. apply Qltb_true in H. now apply Qlt_le_weak.
  - intros y x H. destruct (Qlt_le_dec (leer_score_final x) (leer_score_final y))
      as [Hlt|Hle]; [|exact Hle].
    apply Qltb_true in Hlt. congruence.
  - intros a b c H1 H2. now apply Qle_trans with (leer_score_final b).
Qed.

(** X14. Every fragment in the list returned by
    [realizar_busqueda_hibrida] carries the final score
    [0.6 * score_semantic + 0.4 * score_keyword], and its three scores are
    not negative; neither is the best score. *)
Theorem realizar_busqueda_hibrida_scores (pregunta : str)
    (fragmentos_ranked : list Fragmento) (mejor_score : Q) :
  realizar_busqueda_hibrida consulta_semantica consulta_contiene
    coleccion_count coleccion_get pregunta
  = Returns (fragmentos_ranked, mejor_score) ->
  Forall (fun f =>
            score_final f
            = Some (score_semantic f * (6 # 10) + score_keyword f * (4 # 10))%Q
            /\ (0 <= score_semantic f)%Q /\ (0 <= score_keyword f)%Q
            /\ (0 <= leer_score_final f)%Q)
         fragmentos_ranked
  /\ (0 <= mejor_score)%Q.
Proof.
  intros H. apply realizar_busqueda_hibrida_forma in H as (d & [_ Hd] & H).
  unfold rankear in H. injection H as -> ->.
  assert (Hall : Forall (fun f =>
            score_final f
            = Some (score_semantic f * (6 # 10) + score_keyword f * (4 # 10))%Q
            /\ (0 <= score_semantic f)%Q /\ (0 <= score_keyword f)%Q
            /\ (0 <= leer_score_final f)%Q)
           (sorted_desc
              (fun y x => Qltb (leer_score_final x) (leer_score_final y))
              (map snd (calcular_scores d)))).
  { apply Forall_forall. intros f Hf. apply sorted_desc_elem in Hf.
    apply list_elem_of_In, in_map_iff in Hf as ([k v'] & <- & Hin).
    unfold calcular_scores in Hin.
    apply in_map_iff in Hin as ([k0 v] & [= <- <-] & Hin).
    rewrite Forall_forall in Hd. apply list_elem_of_In, Hd in Hin.
    destruct Hin as (_ & Hs & Hk). simpl in *.
    repeat split; try assumption.
    unfold leer_score_final. simpl.
    rewrite <- (Qplus_0_r 0).
    apply Qplus_le_compat; apply Qmult_le_0_compat; try assumption; discriminate. }
  split; [exact Hall|].
  destruct (sorted_desc _ _) as [|f fs]; [apply Qle_refl|].
  apply Forall_cons in Hall as [(_ & _ & _ & Hf) _]. exact Hf.
Qed.

(** X15. No fragment is ranked twice: the identifiers of the fragments
    returned by [realizar_busqueda_hibrida] are pairwise different. *)
Theorem realizar_busqueda_hibrida_sin_repetidos (pregunta : str)
    (fragmentos_ranked : list Fragmento) (mejor_score : Q) :
  realizar_busqueda_hibrida consulta_semantica consulta_contiene
    coleccion_count coleccion_get pregunta
  = Returns (fragmentos_ranked, mejor_score) ->
  NoDup (map f_id fragmentos_ranked).
Proof.
  intros H. apply realizar_busqueda_hibrida_forma in H as (d & Hd & H).
  apply mapa_valido_calcular in Hd as [Hnd Hall].
  unfold rankear in H. injection H as -> _.
  rewrite (sorted_desc_perm _ (map snd (calcular_scores d))).
  replace (map f_id (map snd (calcular_scores d)))
    with (map fst (calcular_scores d)); [exact Hnd|].
  clear Hnd. induction Hall as [|[k v] l (Hid & _) _ IH]; simpl;
    [reflexivity|].
  simpl in Hid. now rewrite Hid, IH.
Qed.

End Hibrida.

Lemma realizar_busqueda_hibrida_ordenada_witness :
  StronglySorted (fun a b => (leer_score_final b <= leer_score_final a)%Q)
                 ranking_ejemplo.1.
Proof.
  apply (realizar_busqueda_hibrida_ordenada semantica_ejemplo contiene_ejemplo 0
           get_ejemplo (u "que es") ranking_ejemplo.1 ranking_ejemplo.2).
  vm_compute. reflexivity.
Defined.

Lemma realizar_busqueda_hibrida_scores_witness : (0 <= ranking_ejemplo.2)%Q.
Proof.
  apply (realizar_busqueda_hibrida_scores semantica_ejemplo contiene_ejemplo 0
           get_ejemplo (u "que es") ranking_ejemplo.1 ranking_ejemplo.2).
  vm_compute. reflexivity.
Defined.

Lemma realizar_busqueda_hibrida_sin_repetidos_witness :
  NoDup (map f_id ranking_ejemplo.1).
Proof.
  apply (realizar_busqueda_hibrida_sin_repetidos semantica_ejemplo
           contiene_ejemplo 0 get_ejemplo (u "que es")
           ranking_ejemplo.1 ranking_ejemplo.2).
  vm_compute. reflexivity.
Defined.

(** ** Failures of the store *)






(** ** The context handed to the generation *)

Lemma slice_sublist {A} (l : list A) (i j : Z) : slice l i j `sublist_of` l.
Proof.
  unfold slice. etransitivity; [apply sublist_take|apply sublist_drop].
Qed.

Lemma slice_map {A B} (f : A -> B) (l : list A) (i j : Z) :
  map f (slice l i j) = slice (map f l) i j.
Proof.
  unfold slice, len. rewrite length_map.
  change (map f) with (fmap (M := list) f). now rewrite fmap_take, fmap_drop.
Qed.

Section Contexto.

Variable coleccion_get_ids : list str -> outcome (list (str * Metadata)).
Variable fragmentos_finales : list Fragmento.

Let seleccionados : gset str := list_to_set (map f_id fragmentos_finales).

(** Where an added neighbour comes from: the store returned it when asked
    for the neighbours of one of the first six selected fragments. *)
Let origen (vecino : str * Metadata) : Prop :=
  exists frag vecinos,
    frag ∈ slice fragmentos_finales 0 6
    /\ coleccion_get_ids
         (expandir_con_chunks_adyacentes (f_id frag) (f_metadata frag) 1)
       = Returns vecinos
    /\ vecino ∈ vecinos.

Let adicional_valido (a : Adicional) : Prop :=
  (ad_id a ∉ seleccionados)
  /\ ad_id a = v_id_de (ad_metadata a)
  /\ ad_score_final a = 0%Q /\ ad_distancia a = Infinito
  /\ origen (ad_doc a, ad_metadata a).

Let estado_valido (estado : list Adicional * gset str) : Prop :=
  estado.2 = seleccionados ∪ list_to_set (map ad_id estado.1)
  /\ NoDup (map ad_id estado.1)
  /\ Forall adicional_valido estado.1.

Lemma agregar_vecino_valido (estado : list Adicional * gset str)
    (vecino : str * Metadata) :
  origen vecino -> estado_valido estado ->
  estado_valido (agregar_vecino estado vecino).
Proof.
  intros Ho (Hu & Hnd & Hall). destruct estado as [ads usados].
  destruct vecino as [v_doc v_meta]. unfold agregar_vecino. simpl in *.
  case_bool_decide as Hin; [now repeat split|].
  assert (Hfuera : (v_id_de v_meta ∉ seleccionados)
                   /\ (v_id_de v_meta ∉ map ad_id ads)).
  { subst usados. split; intros H; apply Hin; apply elem_of_union;
      [now left|right; now apply elem_of_list_to_set]. }
  destruct Hfuera as [Hsel Hads]. unfold estado_valido. simpl.
  rewrite map_app. simpl. split; [|split].
  - subst usados. rewrite list_to_set_app_L. simpl.
    now rewrite union_empty_r_L, (assoc_L (∪)).
  - apply NoDup_app. split; [exact Hnd|]. split; [|apply NoDup_singleton].
    intros x Hx Hx'. apply list_elem_of_singleton in Hx'. now subst x.
  - apply Forall_app. split; [exact Hall|]. apply Forall_singleton.
    unfold adicional_valido. simpl. auto.
Qed.

Lemma expandir_fragmento_valido (estado : list Adicional * gset str)
    (frag : Fragmento) :
  frag ∈ slice fragmentos_finales 0 6 -> estado_valido estado ->
  estado_valido (expandir_fragmento coleccion_get_ids estado frag).
Proof.
  intros Hfrag Hst. unfold expandir_fragmento.
  destruct (expandir_con_chunks_adyacentes _ _ 1) as [|i0 ids] eqn:Ei;
    [exact Hst|].
  destruct (coleccion_get_ids (i0 :: ids)) as [vecinos| |] eqn:Eg;
    try exact Hst.
  apply (fold_left_invariante estado_valido); [exact Hst|].
  intros st v Hv Hst'. apply agregar_vecino_valido; [|exact Hst'].
  exists frag, vecinos. rewrite Ei. auto.
Qed.

Lemma expansion_valida :
  estado_valido
    (fold_left (expandir_fragmento coleccion_get_ids)
               (slice fragmentos_finales 0 6) ([], seleccionados)).
Proof.
  apply (fold_left_invariante estado_valido).
  - unfold estado_valido. simpl. split; [now rewrite union_empty_r_L|].
    split; constructor.
  - intros st frag Hfrag Hst. now apply expandir_fragmento_valido.
Qed.

End Contexto.

(** X17. The context that [ejecutar_chat] prepares consists of the first
    [TOP_K_FINAL] ranked fragments followed by added neighbours. Each added
    neighbour has final score 0 and infinite distance, is identified from
    its own metadata, and was returned by the store when it was asked for
    the neighbours of one of the first six selected fragments. When the
    ranked fragments have different identifiers, so do all the entries of
    the context: a neighbour that is already selected, or already added,
    is skipped. *)
Theorem preparar_contexto_sin_repetidos
    (coleccion_get_ids : list str -> outcome (list (str * Metadata)))
    (fragmentos_ranked : list Fragmento) :
  exists chunks_adicionales,
    preparar_contexto coleccion_get_ids fragmentos_ranked
    = map inl (slice fragmentos_ranked 0 TOP_K_FINAL)
      ++ map inr chunks_adicionales
    /\ Forall (fun a =>
                 ad_score_final a = 0%Q /\ ad_distancia a = Infinito
                 /\ ad_id a = v_id_de (ad_metadata a)
                 /\ exists frag vecinos,
                      frag ∈ slice (slice fragmentos_ranked 0 TOP_K_FINAL) 0 6
                      /\ coleccion_get_ids
                           (expandir_con_chunks_adyacentes
                              (f_id frag) (f_metadata frag) 1)
                         = Returns vecinos
                      /\ (ad_doc a, ad_metadata a) ∈ vecinos)
              chunks_adicionales
    /\ (NoDup (map f_id fragmentos_ranked) ->
        NoDup (map id_de_contexto
                   (preparar_contexto coleccion_get_ids fragmentos_ranked))).
Proof.
  unfold preparar_contexto.
  set (finales := slice fragmentos_ranked 0 TOP_K_FINAL).
  assert (Hsel : NoDup (map f_id fragmentos_ranked) -> NoDup (map f_id finales)).
  { intros H. unfold finales. rewrite slice_map.
    eapply sublist_NoDup; [exact H|apply slice_sublist]. }
  destruct (EXPANDIR_CONTEXTO && tiene_chunk finales).
  - destruct (expansion_valida coleccion_get_ids finales) as (Hu & Hnd & Hall).
    set (ads := (fold_left (expandir_fragmento coleccion_get_ids)
                           (slice finales 0 6)
                           ([], list_to_set (map f_id finales))).1) in *.
    exists ads. split; [reflexivity|]. split.
    + eapply Forall_impl; [exact Hall|].
      intros a (_ & Hid & Hs & Hd & Ho). auto.
    + intros H. rewrite map_app, !map_map. simpl.
      apply NoDup_app. split; [now apply Hsel|]. split; [|exact Hnd].
      intros x Hx Hx'.
      apply list_elem_of_In, in_map_iff in Hx' as (a & <- & Ha).
      rewrite Forall_forall in Hall. apply list_elem_of_In, Hall in Ha.
      destruct Ha as [Ha _]. apply Ha. now apply elem_of_list_to_set.
  - exists []. split; [now rewrite app_nil_r|]. split; [constructor|].
    intros H. rewrite map_map. simpl. now apply Hsel.
Qed.

Lemma preparar_contexto_sin_repetidos_witness :
  NoDup (map id_de_contexto
             (preparar_contexto get_ids_corpus ranking_ejemplo.1)).
Proof.
  destruct (preparar_contexto_sin_repetidos get_ids_corpus ranking_ejemplo.1)
    as (ads & _ & _ & H).
  apply H. vm_compute. repeat constructor. intros Hx. inversion Hx.
Defined.

(** X18. The selection never has more than [TOP_K_FINAL] fragments, and
    nothing is added to it when the first selected fragment has no [chunk]
    key in its metadata, or when every fetch of neighbours raises or
    returns nothing. *)
Theorem preparar_contexto_sin_expansion
    (coleccion_get_ids : list str -> outcome (list (str * Metadata)))
    (fragmentos_ranked : list Fragmento) :
  len (slice fragmentos_ranked 0 TOP_K_FINAL) <= TOP_K_FINAL
  /\ ((tiene_chunk (slice fragmentos_ranked 0 TOP_K_FINAL) = false
       \/ forall ids vecinos,
            coleccion_get_ids ids = Returns vecinos -> vecinos = []) ->
      preparar_contexto coleccion_get_ids fragmentos_ranked
      = map inl (slice fragmentos_ranked 0 TOP_K_FINAL)).
Proof.
  split; [apply (len_slice_ventana _ 0 TOP_K_FINAL); unfold TOP_K_FINAL; lia|].
  intros H. unfold preparar_contexto.
  set (finales := slice fragmentos_ranked 0 TOP_K_FINAL) in *.
  destruct H as [H|H]; [now rewrite H, andb_false_r|].
  destruct (EXPANDIR_CONTEXTO && tiene_chunk finales); [|reflexivity].
  assert (Hads : (fold_left (expandir_fragmento coleccion_get_ids)
                            (slice finales 0 6)
                            ([], list_to_set (map f_id finales))).1 = []).
  { apply (fold_left_invariante (fun st : list Adicional * gset str => st.1 = []));
      [reflexivity|].
    intros st frag _ Hst. unfold expandir_fragmento.
    destruct (expandir_con_chunks_adyacentes _ _ 1) as [|i0 ids]; [exact Hst|].
    destruct (coleccion_get_ids (i0 :: ids)) as [vecinos| |] eqn:Eg;
      try exact Hst.
    apply H in Eg. now subst vecinos. }
  rewrite Hads. simpl. now rewrite app_nil_r.
Qed.

Lemma preparar_contexto_sin_expansion_witness :
  preparar_contexto get_ids_ejemplo ranking_ejemplo.1
  = map inl (slice ranking_ejemplo.1 0 TOP_K_FINAL).
Proof.
  apply preparar_contexto_sin_expansion. right. intros ids vecinos H.
  discriminate.
Defined.

Example construir_contexto_ejemplo :
  construir_contexto_para_modelo
    [inr {| ad_doc := u "texto"; ad_metadata := meta_ejemplo 1;
            ad_distancia := Infinito; ad_score_final := 0;
            ad_id := u "spec.pdf_pag0_chunk1" |}]
  = salto ++ salto ++ repeat 9472%N 50
    ++ u "[FRAGMENTO 1]" ++ salto ++ u "📄 Documento: spec.pdf" ++ salto
    ++ u "📃 Página: 1 | Fragmento: 2" ++ salto ++ salto ++ u "texto".
Proof. vm_compute. reflexivity. Qed.

Example formatear_fuentes_ejemplo :
  let frag d p :=
    inr {| ad_doc := u "texto";
           ad_metadata := {| source := d; page := p; chunk := None;
                             total_chunks_in_page := None |};
           ad_distancia := Infinito; ad_score_final := 0; ad_id := [] |} in
  formatear_fuentes_respuesta
    [frag (u "b.pdf") 4; frag (u "a.pdf") 9; frag (u "b.pdf") 0; frag (u "b.pdf") 4]
  = u "  📄 a.pdf" ++ salto ++ u "     Páginas consultadas: 10" ++ salto
    ++ u "  📄 b.pdf" ++ salto ++ u "     Páginas consultadas: 1, 5".
Proof. vm_compute. reflexivity. Qed.

(** ** The context string *)

Lemma es_infijo_refl (s : str) : es_infijo s s.
Proof. exists [], []. now rewrite app_nil_r. Qed.

Lemma es_infijo_trans (a b c : str) :
  es_infijo a b -> es_infijo b c -> es_infijo a c.
Proof.
  intros (p1 & q1 & ->) (p2 & q2 & ->).
  exists (p2 ++ p1), (q1 ++ q2). now rewrite <- !app_assoc.
Qed.

Lemma es_infijo_app_l (a s t : str) : es_infijo a s -> es_infijo a (s ++ t).
Proof.
  intros (p & q & ->). exists p, (q ++ t). now rewrite <- !app_assoc.
Qed.

Lemma es_infijo_app_r (a s t : str) : es_infijo a t -> es_infijo a (s ++ t).
Proof.
  intros (p & q & ->). exists (s ++ p), q. now rewrite <- !app_assoc.
Qed.

Lemma es_infijo_join (sep x : str) (l : list str) :
  x ∈ l -> es_infijo x (join sep l).
Proof.
  induction l as [|y l IH]; intros H; [now apply elem_of_nil in H|].
  apply elem_of_cons in H as [->|H].
  - destruct l; simpl; [apply es_infijo_refl|].
    apply es_infijo_app_l, es_infijo_refl.
  - specialize (IH H). destruct l as [|z l]; [now apply elem_of_nil in H|].
    change (join sep (y :: z :: l)) with (y ++ sep ++ join sep (z :: l)).
    now apply es_infijo_app_r, es_infijo_app_r.
Qed.

Lemma enumerate_lookup {A} (l : list A) (s : Z) (k : nat) (x : A) :
  l !! k = Some x -> (s + Z.of_nat k, x) ∈ enumerate s l.
Proof.
  revert s k. induction l as [|y l IH]; intros s k H; [discriminate|].
  rewrite enumerate_cons. destruct k as [|k]; simpl in H.
  - injection H as ->. rewrite Z.add_0_r. apply elem_of_cons. now left.
  - apply elem_of_cons. right.
    replace (s + Z.of_nat (S k)) with (s + 1 + Z.of_nat k) by lia. now apply IH.
Qed.

(** X19. The context built for the model starts with two line feeds and a
    rule of 50 box characters, and is just that for an empty selection.
    For every selected fragment, at position [k] counted from 0, it
    contains the label [FRAGMENTO k+1] followed by the name of the document
    and the page number counted from 1, and it contains the text of the
    fragment. *)
Theorem construir_contexto_para_modelo_contenido
    (fragmentos : list (Fragmento + Adicional)) :
  (exists resto,
      construir_contexto_para_modelo fragmentos
      = salto ++ salto ++ repeat 9472%N 50 ++ resto
      /\ (fragmentos = [] -> resto = []))
  /\ forall k frag,
       fragmentos !! k = Some frag ->
       es_infijo
         (u "[FRAGMENTO " ++ str_int (Z.of_nat k + 1) ++ u "]" ++ salto
          ++ u "📄 Documento: " ++ source (metadata_de frag) ++ salto
          ++ u "📃 Página: " ++ str_int (page (metadata_de frag) + 1))
         (construir_contexto_para_modelo fragmentos)
       /\ es_infijo (doc_de frag) (construir_contexto_para_modelo fragmentos).
Proof.
  unfold construir_contexto_para_modelo. split.
  - eexists. split; [reflexivity|]. now intros ->.
  - intros k frag Hk.
    assert (Hin : contexto_formateado (Z.of_nat k + 1, frag)
                  ∈ map contexto_formateado (enumerate 1 fragmentos)).
    { apply list_elem_of_In, in_map, list_elem_of_In.
      rewrite Z.add_comm. now apply enumerate_lookup. }
    apply (es_infijo_join (salto ++ salto)) in Hin.
    assert (Hctx : forall a,
              es_infijo a (contexto_formateado (Z.of_nat k + 1, frag)) ->
              es_infijo a
                (salto ++ salto ++ repeat 9472%N 50
                 ++ join (salto ++ salto)
                      (map contexto_formateado (enumerate 1 fragmentos)))).
    { intros a Ha. do 3 apply es_infijo_app_r.
      now apply es_infijo_trans with (contexto_formateado (Z.of_nat k + 1, frag)). }
    split; apply Hctx; unfold contexto_formateado.
    + destruct (chunk (metadata_de frag)).
      * exists [], (u " | Fragmento: "
                    ++ str_int (default 0 (Some z) + 1)
                    ++ salto ++ salto ++ doc_de frag).
        simpl. now rewrite <- !app_assoc.
      * exists [], (salto ++ salto ++ doc_de frag).
        simpl. now rewrite <- !app_assoc.
    + do 2 apply es_infijo_app_r. apply es_infijo_app_r, es_infijo_refl.
Qed.

Lemma construir_contexto_para_modelo_contenido_witness :
  es_infijo (u "Attention is all you need")
    (construir_contexto_para_modelo
       [inr {| ad_doc := u "Attention is all you need";
               ad_metadata := meta_ejemplo 1; ad_distancia := Infinito;
               ad_score_final := 0; ad_id := u "spec.pdf_pag0_chunk1" |}]).
Proof.
  set (frag := inr {| ad_doc := u "Attention is all you need";
                      ad_metadata := meta_ejemplo 1; ad_distancia := Infinito;
                      ad_score_final := 0; ad_id := u "spec.pdf_pag0_chunk1" |}
               : Fragmento + Adicional).
  exact (proj2 (proj2 (construir_contexto_para_modelo_contenido [frag])
                  0%nat frag eq_refl)).
Defined.

(** ** The list of sources *)

Lemma str_ltb_asimetrica (a : str) :
  forall b, str_ltb a b = true -> str_ltb b a = false.
Proof.
  induction a as [|x a IH]; intros [|y b]; simpl; try discriminate;
    try reflexivity.
  destruct (N.ltb_spec x y), (N.ltb_spec y x); try lia; try discriminate;
    try reflexivity.
  apply IH.
Qed.

Lemma str_ltb_total (a : str) :
  forall b, str_ltb a b = false -> str_ltb b a = false -> a = b.
Proof.
  induction a as [|x a IH]; intros [|y b]; simpl; try discriminate;
    try reflexivity.
  destruct (N.ltb_spec x y), (N.ltb_spec y x); try lia; try discriminate.
  intros H1 H2. assert (x = y) by lia. subst y. f_equal. now apply IH.
Qed.

Lemma str_leb_trans (a : str) :
  forall b c,
    str_ltb b a = false -> str_ltb c b = false -> str_ltb c a = false.
Proof.
  induction a as [|x a IH]; intros [|y b] [|z c]; simpl; try discriminate;
    try reflexivity.
  destruct (N.ltb_spec y x), (N.ltb_spec x y), (N.ltb_spec z y),
    (N.ltb_spec y z), (N.ltb_spec z x), (N.ltb_spec x z);
    try lia; try discriminate; try reflexivity.
  apply IH.
Qed.

Lemma ordenada_estricta {A B} (R S : A -> A -> Prop) (f : A -> B) (l : list A) :
  (forall a b, R a b -> f a <> f b -> S a b) ->
  StronglySorted R l -> NoDup (map f l) -> StronglySorted S l.
Proof.
  intros HRS. induction 1 as [|x l Hl IH Hx]; intros Hnd; [constructor|].
  simpl in Hnd. apply NoDup_cons in Hnd as [Hnotin Hnd].
  constructor; [now apply IH|].
  apply Forall_forall. intros y Hy. rewrite Forall_forall in Hx.
  apply HRS; [now apply Hx|].
  intros E. apply Hnotin. rewrite E.
  now apply list_elem_of_In, in_map, list_elem_of_In.
Qed.


Lemma dict_elem {V} (k : str) (v : V) (d : list (str * V)) :
  NoDup (map fst d) -> ((k, v) ∈ d <-> dict_get k d = Some v).
Proof.
  induction d as [|[k0 v0] d IH]; simpl; intros Hnd.
  - split; [intros H; now apply elem_of_nil in H|discriminate].
  - apply NoDup_cons in Hnd as [Hnotin Hnd]. rewrite elem_of_cons.
    case_bool_decide as Hk.
    + subst k0. split.
      * intros [[= ->]|Hin]; [reflexivity|].
        exfalso. apply Hnotin.
        change k with (fst (k, v)). now apply list_elem_of_In, in_map, list_elem_of_In.
      * intros [= ->]. now left.
    + rewrite <- (IH Hnd). split; [|tauto].
      intros [[= -> _]|Hin]; [congruence|exact Hin].
Qed.







(** ** Whole-word matching and batch windows *)

Lemma frontera_inicio (pre t post : str) (c : N) :
  es_palabra c = true ->
  frontera (pre ++ c :: t ++ post) (length pre)
  = negb (from_option es_palabra false (last pre)).
Proof.
  intros Hc. unfold frontera.
  assert (Hd : (pre ++ c :: t ++ post) !! length pre = Some c)
    by now rewrite list_lookup_middle.
  rewrite Hd. simpl. rewrite Hc.
  destruct pre as [|x pre] using rev_ind; [reflexivity|].
  rewrite length_app. simpl. rewrite Nat.add_1_r. rewrite last_snoc.
  rewrite <- app_assoc. simpl.
  rewrite list_lookup_middle by reflexivity. simpl.
  now destruct (es_palabra x).
Qed.

Lemma frontera_fin (pre t post : str) (c : N) :
  es_palabra c = true ->
  frontera (pre ++ (t ++ [c]) ++ post) (length pre + length (t ++ [c]))
  = negb (from_option es_palabra false (head post)).
Proof.
  intros Hc. unfold frontera.
  rewrite length_app. simpl.
  replace (length pre + (length t + 1))%nat with (S (length (pre ++ t)))
    by (rewrite length_app; lia).
  replace (pre ++ (t ++ [c]) ++ post) with ((pre ++ t) ++ c :: post)
    by (now rewrite <- !app_assoc).
  rewrite list_lookup_middle by reflexivity. simpl. rewrite Hc.
  replace ((pre ++ t) ++ c :: post) with (((pre ++ t) ++ [c]) ++ post)
    by (now rewrite <- !app_assoc).
  rewrite lookup_app_r by (rewrite length_app; simpl; lia).
  replace (S (length (pre ++ t)) - length ((pre ++ t) ++ [c]))%nat with 0%nat
    by (rewrite (length_app (pre ++ t)); simpl; lia).
  destruct post as [|y post]; simpl; [reflexivity|].
  now destruct (es_palabra y).
Qed.

(** X21. A term that begins and ends with a word character is found by
    the scanner only as a whole word: a match means that the text splits
    into a part before, the term, and a part after, where the part before
    does not end with a word character and the part after does not begin
    with one. *)
Theorem re_search_palabra_entera (c1 c2 : N) (medio s : str) :
  es_palabra c1 = true -> es_palabra c2 = true ->
  re_search_palabra ((c1 :: medio) ++ [c2]) s = true ->
  exists pre post,
    s = pre ++ ((c1 :: medio) ++ [c2]) ++ post
    /\ from_option es_palabra false (last pre) = false
    /\ from_option es_palabra false (head post) = false.
Proof.
  intros H1 H2 H. unfold re_search_palabra in H.
  apply existsb_exists in H as (i & Hi & H).
  apply andb_true_iff in H as [H Hfin]. apply andb_true_iff in H as [Hini H].
  apply bool_decide_eq_true in H.
  apply in_seq in Hi.
  set (t := (c1 :: medio) ++ [c2]) in *.
  assert (Es : s = take i s ++ t ++ drop (length t) (drop i s)).
  { rewrite <- H at 1. now rewrite take_drop, take_drop. }
  assert (Hlen : length (take i s) = i).
  { rewrite length_take. apply Nat.min_l.
    destruct (Nat.le_gt_cases i (length s)) as [|Hgt]; [assumption|].
    rewrite drop_ge in H by lia. rewrite take_nil in H. discriminate. }
  set (pre := take i s) in *. set (post := drop (length t) (drop i s)) in *.
  assert (Hini' : frontera (pre ++ t ++ post) (length pre) = true)
    by (rewrite <- Es, Hlen; exact Hini).
  assert (Hfin' : frontera (pre ++ t ++ post) (length pre + length t) = true)
    by (rewrite <- Es, Hlen; exact Hfin).
  exists pre, post. split; [exact Es|]. split.
  - pose proof (frontera_inicio pre (medio ++ [c2]) post c1 H1) as F.
    change (pre ++ c1 :: (medio ++ [c2]) ++ post) with (pre ++ t ++ post) in F.
    rewrite F in Hini'. now apply negb_true_iff in Hini'.
  - pose proof (frontera_fin pre (c1 :: medio) post c2 H2) as F. fold t in F.
    rewrite F in Hfin'. now apply negb_true_iff in Hfin'.
Qed.

Lemma re_search_palabra_entera_witness :
  exists pre post,
    u "the key, value" = pre ++ (u "key") ++ post
    /\ from_option es_palabra false (last pre) = false
    /\ from_option es_palabra false (head post) = false.
Proof.
  apply (re_search_palabra_entera 107 121 [101%N]); vm_compute; reflexivity.
Defined.

(** X22. The batches requested by the scan start at exactly the multiples
    of the batch size that are below the number of documents, so every
    position below that number lies in one of the requested batches. *)
Theorem offsets_cubren (total_docs batch_size : Z) :
  0 < batch_size ->
  (forall o, o ∈ offsets total_docs batch_size <->
             exists k, 0 <= k /\ o = k * batch_size /\ o < total_docs)
  /\ (forall j, 0 <= j < total_docs ->
        exists o, o ∈ offsets total_docs batch_size /\ o <= j < o + batch_size).
Proof.
  intros Hb.
  assert (Hiff : forall o, o ∈ offsets total_docs batch_size <->
                   exists k, 0 <= k /\ o = k * batch_size /\ o < total_docs).
  { intros o. unfold offsets. rewrite list_elem_of_In, in_map_iff. split.
    - intros (k & <- & Hk). apply list_elem_of_In, elem_of_seqZ in Hk.
      exists k. split; [lia|]. split; [reflexivity|].
      assert (k * batch_size <= total_docs + batch_size - 1 - batch_size); [|lia].
      assert (k + 1 <= (total_docs + batch_size - 1) / batch_size) by lia.
      pose proof (Z.mul_div_le (total_docs + batch_size - 1) batch_size Hb).
      nia.
    - intros (k & Hk & -> & Hlt). exists k. split; [reflexivity|].
      apply list_elem_of_In, elem_of_seqZ. split; [lia|].
      assert (k + 1 <= (total_docs + batch_size - 1) / batch_size)
        by (apply Z.div_le_lower_bound; [lia|nia]).
      lia. }
  split; [exact Hiff|].
  intros j Hj. exists (j / batch_size * batch_size). split.
  - apply Hiff. exists (j / batch_size).
    pose proof (Z.div_pos j batch_size ltac:(lia) Hb).
    pose proof (Z.mul_div_le j batch_size Hb). split; [lia|]. split; [reflexivity|lia].
  - pose proof (Z.div_mod j batch_size ltac:(lia)).
    pose proof (Z.mod_pos_bound j batch_size Hb). lia.
Qed.

Lemma offsets_cubren_witness :
  exists o, o ∈ offsets 250 100 /\ o <= 237 < o + 100.
Proof.
  apply (offsets_cubren 250 100); lia.
Defined.

(** ** What the relevance gate lets through *)

Lemma contribucion_rrf_valor (r : Z) :
  0 <= r -> contribucion_rrf r = (1 * (1 # Z.to_pos (r + 60)))%Q.
Proof.
  intros Hr. unfold contribucion_rrf, Qdiv. f_equal.
  destruct (r + 60) as [|p|p] eqn:E; try lia. reflexivity.
Qed.

Lemma contribucion_rrf_decrece (r s : Z) :
  0 <= r -> r <= s -> (contribucion_rrf s <= contribucion_rrf r)%Q.
Proof.
  intros Hr Hs. rewrite !contribucion_rrf_valor by lia.
  unfold Qle. simpl. rewrite !Pos.mul_1_l, !Z2Pos.id by lia. lia.
Qed.

(** In a result list with different identifiers a fragment collects at
    most the contribution of the first rank. *)
Lemma suma_rangos_cota (cid : str) (results : list Hit) :
  NoDup (map (fun h : Hit => chunk_id_semantico h.2) results) ->
  forall r, 0 <= r ->
    (suma_rangos cid r results <= contribucion_rrf r)%Q
    /\ (cid ∉ map (fun h : Hit => chunk_id_semantico h.2) results ->
        (suma_rangos cid r results == 0)%Q).
Proof.
  induction results as [|hit results IH]; intros Hnd r Hr;
    cbn [suma_rangos map].
  - split; [now apply contribucion_rrf_nonneg|reflexivity].
  - apply NoDup_cons in Hnd as [Hnotin Hnd].
    destruct (IH Hnd (r + 1) ltac:(lia)) as [Hle Hzero].
    case_bool_decide as Hc.
    + split.
      * rewrite Hzero by (now rewrite <- Hc). rewrite Qplus_0_r. apply Qle_refl.
      * intros Hout. exfalso. apply Hout. rewrite <- Hc.
        apply elem_of_cons. now left.
    + split.
      * rewrite Qplus_0_l. eapply Qle_trans; [exact Hle|].
        apply contribucion_rrf_decrece; lia.
      * intros Hout. rewrite Qplus_0_l. apply Hzero.
        intros Hin. apply Hout. apply elem_of_cons. now right.
Qed.

Lemma enumerate_length {A} (l : list A) :
  forall s, length (enumerate s l) = length l.
Proof.
  induction l as [|x l IH]; intros s; [reflexivity|].
  rewrite enumerate_cons. simpl. now rewrite IH.
Qed.

Section Puerta2.

Variable consulta_semantica : str -> outcome (list Hit).
Hypothesis ids_distintos :
  forall q l, consulta_semantica q = Returns l ->
              NoDup (map (fun h : Hit => chunk_id_semantico h.2) l).

Lemma semantica_cota (queries : list (Z * str)) :
  forall d all,
    busqueda_semantica consulta_semantica queries d = Returns all ->
    forall cid,
      (semantic_de cid all
       <= semantic_de cid d
          + inject_Z (Z.of_nat (length queries)) * contribucion_rrf 1)%Q.
Proof.
  induction queries as [|[q_idx query] queries IH]; intros d all; simpl length.
  - simpl. intros [= <-] cid. rewrite Qmult_0_l, Qplus_0_r. apply Qle_refl.
  - cbn [busqueda_semantica].
    destruct (consulta_semantica query) as [results| |] eqn:E;
      cbn [mbind outcome_bind]; [|discriminate|discriminate].
    intros H cid. eapply Qle_trans; [exact (IH _ _ H cid)|].
    rewrite semantic_fold.
    destruct (suma_rangos_cota cid results (ids_distintos _ _ E) 1 ltac:(lia))
      as [Hle _].
    rewrite Nat2Z.inj_succ. unfold Z.succ. rewrite inject_Z_plus.
    rewrite <- Qplus_assoc. apply Qplus_le_r.
    rewrite Qmult_plus_distr_l, Qmult_1_l, Qplus_comm.
    apply Qplus_le_r. exact Hle.
Qed.

Lemma semantica_keyword_cero (queries : list (Z * str)) :
  forall d all,
    Forall (fun kv : str * Fragmento => score_keyword kv.2 = 0%Q) d ->
    busqueda_semantica consulta_semantica queries d = Returns all ->
    Forall (fun kv : str * Fragmento => score_keyword kv.2 = 0%Q) all.
Proof.
  induction queries as [|[q_idx query] queries IH]; intros d all Hd; simpl.
  - now intros [= <-].
  - destruct (consulta_semantica query) as [results| |]; cbn [mbind outcome_bind];
      [|discriminate|discriminate].
    apply IH.
    apply (fold_left_invariante
             (Forall (fun kv : str * Fragmento => score_keyword kv.2 = 0%Q)));
      [exact Hd|].
    intros st [idx [[doc dist] meta]] _ Hst. unfold acumular_semantico.
    apply dict_update_Forall; [now intros k0 v|].
    destruct (dict_contains _ st); [exact Hst|].
    unfold dict_add. apply Forall_app. split; [exact Hst|].
    now apply Forall_singleton.
Qed.

End Puerta2.

(** X23. A question with at most two query variants whose keyword search
    and exhaustive scan find nothing is never answered: each ranked
    fragment then has a final score of at most [0.6 * 2 / 61], which is
    below [UMBRAL_RELEVANCIA], so the outcome is "no information found" or
    "out of scope". The store is assumed to return fragments with
    different identifiers in a result list. *)
Theorem responder_sin_respuesta
    (consulta_semantica : str -> outcome (list Hit))
    (consulta_contiene : str -> Z -> outcome (list Hit))
    (coleccion_count : Z)
    (coleccion_get : Z -> Z -> outcome (list (str * Metadata * str)))
    (coleccion_get_ids : list str -> outcome (list (str * Metadata)))
    (pregunta : str) (desenlace : Desenlace) :
  (forall q l, consulta_semantica q = Returns l ->
               NoDup (map (fun h : Hit => chunk_id_semantico h.2) l)) ->
  (length (variantes_pregunta pregunta) <= 2)%nat ->
  (busqueda_por_keywords consulta_contiene pregunta N_RESULTADOS_KEYWORD).1 = [] ->
  busqueda_exhaustiva_texto coleccion_count coleccion_get
    (List.filter (en_lista TERMINOS_CRITICOS) (extraer_keywords pregunta)) 20
  = [] ->
  responder consulta_semantica consulta_contiene coleccion_count
    coleccion_get coleccion_get_ids pregunta = Returns desenlace ->
  desenlace = InfoNoEncontrada \/ desenlace = FueraDeAmbito.
Proof.
  intros Hids Hvar Hkw Hscan. unfold responder, realizar_busqueda_hibrida.
  destruct (busqueda_semantica _ _ _) as [all| |] eqn:Es;
    cbn [mbind outcome_bind]; [|discriminate|discriminate].
  unfold USAR_BUSQUEDA_HIBRIDA. rewrite Hkw, Hscan.
  change (fusion_keywords all []) with all.
  assert (Hv0 : mapa_valido []) by (split; constructor).
  pose proof (mapa_valido_semantica _ _ _ _ Hv0 Es) as [Hnd _].
  pose proof (semantica_keyword_cero _ _ _ _ (Forall_nil_2 _) Es) as Hcero.
  pose proof (semantica_cota _ Hids _ _ _ Es) as Hcota.
  assert (Hbajo : forall d,
            d = calcular_scores all \/ d = calcular_scores (calcular_scores all) ->
            Forall (fun f => (leer_score_final f < UMBRAL_RELEVANCIA)%Q)
                   (map snd d)).
  { intros d Hd. apply Forall_forall. intros f Hf.
    assert (Hg : exists k g, (k, g) ∈ all /\ leer_score_final f
                 = (score_semantic g * (6 # 10) + score_keyword g * (4 # 10))%Q).
    { apply list_elem_of_In, in_map_iff in Hf as ([k f'] & <- & Hin).
      destruct Hd as [-> | ->]; unfold calcular_scores in Hin.
      - apply in_map_iff in Hin as ([k0 g] & [= <- <-] & Hin).
        exists k0, g. split; [now apply list_elem_of_In|reflexivity].
      - apply in_map_iff in Hin as ([k1 g1] & [= <- <-] & Hin).
        apply in_map_iff in Hin as ([k0 g] & [= <- <-] & Hin).
        exists k0, g. split; [now apply list_elem_of_In|reflexivity]. }
    destruct Hg as (k & g & Hin & ->).
    rewrite Forall_forall in Hcero. pose proof (Hcero _ Hin) as Hz.
    simpl in Hz. rewrite Hz.
    pose proof (Hcota k) as Hk. unfold semantic_de in Hk.
    apply dict_elem in Hin; [|exact Hnd]. rewrite Hin in Hk. simpl in Hk.
    rewrite Qplus_0_l in Hk.
    assert (Hdos : (score_semantic g <= 2 # 61)%Q).
    { eapply Qle_trans; [exact Hk|]. rewrite enumerate_length.
      assert (Hn : Z.of_nat (length (variantes_pregunta pregunta)) <= 2) by lia.
      eapply Qle_trans;
        [apply Qmult_le_compat_r;
         [rewrite <- Zle_Qle; exact Hn|now apply contribucion_rrf_nonneg]|].
      vm_compute. discriminate. }
    eapply Qle_lt_trans;
      [apply Qplus_le_l, Qmult_le_compat_r; [exact Hdos|discriminate]|].
    vm_compute. reflexivity. }
  set (terminos := List.filter (en_lista TERMINOS_CRITICOS) (extraer_keywords pregunta)).
  set (d := match terminos with
            | [] => calcular_scores all
            | _ => calcular_scores (fusion_exhaustiva (calcular_scores all) [])
            end).
  assert (Hd : d = calcular_scores all \/ d = calcular_scores (calcular_scores all))
    by (unfold d; destruct terminos; [now left|now right]).
  specialize (Hbajo d Hd). unfold rankear.
  destruct (sorted_desc _ (map snd d)) as [|top resto] eqn:Er.
  - intros [= <-]. now left.
  - assert (Htop : (leer_score_final top < UMBRAL_RELEVANCIA)%Q).
    { rewrite Forall_forall in Hbajo. apply Hbajo.
      apply (sorted_desc_elem
               (fun y x => Qltb (leer_score_final x) (leer_score_final y))).
      rewrite Er. apply elem_of_cons. now left. }
    apply Qltb_true in Htop. rewrite Htop. intros [= <-]. now right.
Qed.

Lemma responder_sin_respuesta_witness :
  FueraDeAmbito = InfoNoEncontrada \/ FueraDeAmbito = FueraDeAmbito.
Proof.
  apply (responder_sin_respuesta semantica_ejemplo contiene_ejemplo 0
           get_ejemplo get_ids_ejemplo (u "que es")).
  - intros q l [= <-]. simpl. apply NoDup_singleton.
  - vm_compute. lia.
  - vm_compute. reflexivity.
  - vm_compute. reflexivity.
  - vm_compute. reflexivity.
Defined.

(** ** The list of indexed documents *)

(** X24. [obtener_documentos_indexados] returns the names found under
    ['source'] in the stored metadata, each once and in strictly ascending
    order; metadata without that key is ignored, and when reading the
    collection fails the result is the empty list. *)
Theorem obtener_documentos_indexados_correcta
    (all_metadata : outcome (list (option str))) :
  StronglySorted (fun a b => str_ltb a b = true)
                 (obtener_documentos_indexados all_metadata)
  /\ (forall doc,
        doc ∈ obtener_documentos_indexados all_metadata <->
        exists metadatas,
          all_metadata = Returns metadatas /\ Some doc ∈ metadatas)
  /\ ((forall metadatas, all_metadata <> Returns metadatas) ->
      obtener_documentos_indexados all_metadata = []).
Proof.
  destruct all_metadata as [metadatas|e|]; simpl.
  - split; [|split].
    + apply (ordenada_estricta (fun a b => str_ltb b a = false) _ (fun a => a)).
      * intros a b Hle Hne. destruct (str_ltb a b) eqn:E; [reflexivity|].
        exfalso. apply Hne. now apply str_ltb_total.
      * apply sorted_desc_ordenada_gen.
        -- intros y x H. now apply str_ltb_asimetrica.
        -- intros y x H. exact H.
        -- intros a b c H1 H2. now apply str_leb_trans with (b := b).
      * rewrite map_id, sorted_desc_perm. apply NoDup_elements.
    + intros doc.
      rewrite sorted_desc_elem, elem_of_elements, elem_of_list_to_set,
        list_elem_of_omap.
      split.
      * intros (meta & Hin & ->). eauto.
      * intros (ms & [= <-] & Hin). eauto.
    + intros H. now destruct (H metadatas).
  - split; [constructor|]. split; [|reflexivity].
    intros doc. split; [intros H; now apply elem_of_nil in H|].
    intros (ms & H & _). discriminate.
  - split; [constructor|]. split; [|reflexivity].
    intros doc. split; [intros H; now apply elem_of_nil in H|].
    intros (ms & H & _). discriminate.
Qed.

Lemma obtener_documentos_indexados_correcta_witness :
  obtener_documentos_indexados (Raises (u "store")) = [].
Proof.
  apply obtener_documentos_indexados_correcta. intros metadatas H. discriminate.
Defined.

Example obtener_documentos_indexados_ejemplo :
  obtener_documentos_indexados
    (Returns [Some (u "b.pdf"); None; Some (u "a.pdf"); Some (u "b.pdf")])
  = [u "a.pdf"; u "b.pdf"].
Proof. vm_compute. reflexivity. Qed.
